(** * xsys-lang: the rule-language parser and the rule evaluator

    A shallow embedding of [src/main.ts]: [parseInput] with its three
    block patterns, the declaration parser ([parseVariables]), the
    condition and expression parsers ([parseCondition], [parseExpression]),
    the rule parser ([parseRules]) and, from the script that [generateHTML]
    emits, the evaluator ([evaluateExpression]) and, of the form's submit
    handler, the collection of the answers and the rule loop.

    JavaScript strings are sequences of UTF-16 code units; a code unit is
    modelled as a number in [N] and a string as a list of them. *)

From Stdlib Require Import String Ascii NArith ZArith List Bool Lia.
From stdpp Require Import base option list gmap.

Local Open Scope Z_scope.

(** ** Strings *)

Abbreviation char := N.
Abbreviation str := (list N).

(** A string literal of the source, as code units (ASCII literals only). *)
Fixpoint lit (s : string) : str :=
  match s with
  | EmptyString => []
  | String a s' => N_of_ascii a :: lit s'
  end.
Arguments lit s%_string : simpl never.

Definition chr (a : ascii) : char := N_of_ascii a.
Arguments chr a%_char : simpl never.

(** ECMAScript [WhiteSpace] and [LineTerminator] code units: what
    [String.prototype.trim] strips and what [\s] matches. *)
Definition isWhiteSpace (c : char) : bool :=
  ((9 <=? c) && (c <=? 13))%N        (* TAB LF VT FF CR *)
  || (c =? 32)%N                     (* SPACE *)
  || (c =? 160)%N                    (* NBSP *)
  || (c =? 5760)%N                   (* U+1680 *)
  || ((8192 <=? c) && (c <=? 8202))%N (* U+2000 .. U+200A *)
  || (c =? 8232)%N || (c =? 8233)%N  (* LS PS *)
  || (c =? 8239)%N || (c =? 8287)%N  (* U+202F U+205F *)
  || (c =? 12288)%N                  (* U+3000 *)
  || (c =? 65279)%N.                 (* U+FEFF *)

(** [s.trimStart()], [s.trimEnd()], [s.trim()]. *)
Fixpoint trimStart (s : str) : str :=
  match s with
  | [] => []
  | c :: s' => if isWhiteSpace c then trimStart s' else s
  end.

Definition trimEnd (s : str) : str := rev (trimStart (rev s)).

Definition trim (s : str) : str := trimEnd (trimStart s).

(** Truthiness of a string: [!s] holds exactly for the empty string. *)
Definition isEmpty (s : str) : bool :=
  match s with [] => true | _ => false end.

(** Code-unit-wise equality of strings, [a === b]. *)
Definition str_eqb (a b : str) : bool := bool_decide (a = b).

(** [a] is a prefix of [s]. *)
Fixpoint prefixb (a s : str) : bool :=
  match a, s with
  | [], _ => true
  | x :: a', y :: s' => (x =? y)%N && prefixb a' s'
  | _ :: _, [] => false
  end.

(** [s.startsWith(a, i)]. *)
Definition startsWith (s a : str) (i : nat) : bool := prefixb a (drop i s).

(** [s.endsWith(a)]. *)
Definition endsWith (s a : str) : bool := prefixb (rev a) (rev s).

(** [s.substring(a, b)]: both indices are clamped to the length and
    swapped when [a > b]. *)
Definition substring (s : str) (a b : nat) : str :=
  let a' := Nat.min a (length s) in
  let b' := Nat.min b (length s) in
  take (Nat.max a' b' - Nat.min a' b') (drop (Nat.min a' b') s).

(** [s.substring(a)]. *)
Definition substringFrom (s : str) (a : nat) : str :=
  substring s a (length s).

(** [s.slice(b, e)]: a negative index counts from the end. *)
Definition slice (s : str) (b e : Z) : str :=
  let len := Z.of_nat (length s) in
  let from := if b <? 0 then Z.max (len + b) 0 else Z.min b len in
  let to := if e <? 0 then Z.max (len + e) 0 else Z.min e len in
  take (Z.to_nat (Z.max (to - from) 0)) (drop (Z.to_nat from) s).

(** [s.includes(a)]. *)
Fixpoint includes (s a : str) : bool :=
  prefixb a s ||
  match s with
  | [] => false
  | _ :: s' => includes s' a
  end.

(** [s.split(sep)] for a one-character separator: the pieces between all
    the occurrences of [sep]. *)
Fixpoint split (s : str) (sep : char) : list str :=
  match s with
  | [] => [[]]
  | c :: s' =>
      if (c =? sep)%N then [] :: split s' sep
      else match split s' sep with
           | piece :: pieces => (c :: piece) :: pieces
           | [] => [[c]]
           end
  end.

(** ** Data model *)

(** The type [Variable] of the source. *)
Record Variable_ := { name : str; value : str }.

Record Condition := { variable : str; negated : bool }.

(** [LogicalOperator] is declared as ['AND' | 'OR'], but the parser fills
    the field with a string obtained by a cast, so the field is a string. *)
Inductive Expression :=
| ExprCondition (condition : Condition)
| ExprLogical (operator : str) (left right : Expression).

Record Rule := { expression : Expression; result : str }.

Record LanguageInput :=
  { statements : list Variable_; results : list Variable_; rules : list Rule }.

(** ** Errors

    Every failure of the parser is a [SyntaxError] whose message is built
    from the values carried here. *)
Inductive SyntaxError :=
| InvalidVariableDeclaration (blockName : str) (lineNo : nat) (line : str)
| InvalidCondition (condStr : str)
| InvalidLogicalExpression (exprStr : str)
| InvalidRule (lineNo : nat) (line : str)
| ErrorInRule (lineNo : nat) (line : str) (details : SyntaxError)
| FailedToParseInput (details : SyntaxError).

Inductive throws (A : Type) :=
| Ok (a : A)
| Throw (e : SyntaxError).
Arguments Ok {A} a.
Arguments Throw {A} e.

Definition bind {A B} (m : throws A) (k : A -> throws B) : throws B :=
  match m with
  | Ok a => k a
  | Throw e => Throw e
  end.

Notation "'do' x <- m ; k" := (bind m (fun x => k))
  (at level 10, x name, m at level 100, k at level 200).

(** ** parseCondition *)

(** The case-insensitive match of one pattern character: the characters
    whose canonical (upper-case) form is that of [p]; for the ASCII letters
    of [NOT] these are the letter and its lower-case form. *)
Definition eqbIgnoreCase (p c : char) : bool :=
  (c =? p)%N || ((65 <=? p) && (p <=? 90) && (c =? p + 32))%N.

Fixpoint prefixbIgnoreCase (a s : str) : bool :=
  match a, s with
  | [], _ => true
  | x :: a', y :: s' => eqbIgnoreCase x y && prefixbIgnoreCase a' s'
  | _ :: _, [] => false
  end.

(** [s.replace(/NOT/i, '')]: the leftmost match is removed. *)
Fixpoint removeFirstIgnoreCase (a s : str) : str :=
  if prefixbIgnoreCase a s then drop (length a) s
  else match s with
       | [] => []
       | c :: s' => c :: removeFirstIgnoreCase a s'
       end.

Definition parseCondition (condStr : str) : throws Condition :=
  let negated := includes condStr (lit "NOT") in
  let variable := trim (removeFirstIgnoreCase (lit "NOT") condStr) in
  if isEmpty variable then Throw (InvalidCondition condStr)
  else Ok {| variable := variable; negated := negated |}.

(** ** parseExpression *)

(** The [for] loop of [parseExpression] from index [i] on, [n] iterations
    left, with the running [depth]: the first index at which the depth,
    updated for the character there, is 0 and [AND] or [OR] starts. *)
Fixpoint scanOperator (exprStr : str) (n i : nat) (depth : Z) : option nat :=
  match n with
  | O => None
  | S n' =>
      match exprStr !! i with
      | None => None
      | Some c =>
          let depth := if (c =? chr "(")%N then depth + 1 else depth in
          let depth := if (c =? chr ")")%N then depth - 1 else depth in
          if (depth =? 0)
             && (startsWith exprStr (lit "AND") i || startsWith exprStr (lit "OR") i)
          then Some i
          else scanOperator exprStr n' (S i) depth
      end
  end.

Definition findOperator (exprStr : str) : option nat :=
  scanOperator exprStr (length exprStr) 0 0.

(** One call of [parseExpression], the recursive calls made through
    [self]. *)
Definition parseExpressionBody (self : str -> option (throws Expression))
    (exprStr : str) : option (throws Expression) :=
  let exprStr := trim exprStr in
  if startsWith exprStr (lit "(") 0 && endsWith exprStr (lit ")")
  then self (slice exprStr 1 (-1))
  else
    match findOperator exprStr with
    | Some i =>
        let operator := trim (substring exprStr i (i + 3)) in
        let left := trim (substring exprStr 0 i) in
        let right := trim (substringFrom exprStr (i + 3)) in
        if isEmpty left || isEmpty right
        then Some (Throw (InvalidLogicalExpression exprStr))
        else
          match self left with
          | None => None
          | Some (Throw e) => Some (Throw e)
          | Some (Ok l) =>
              match self right with
              | None => None
              | Some (Throw e) => Some (Throw e)
              | Some (Ok r) => Some (Ok (ExprLogical operator l r))
              end
          end
    | None =>
        Some (do condition <- parseCondition exprStr; Ok (ExprCondition condition))
    end.

(** The recursion, bounded by [fuel] calls deep; [None] when it runs out. *)
Fixpoint parseExpressionFuel (fuel : nat) (exprStr : str)
    : option (throws Expression) :=
  match fuel with
  | O => None
  | S fuel' => parseExpressionBody (parseExpressionFuel fuel') exprStr
  end.

(** Every recursive call is on a shorter string, so [length exprStr + 1]
    calls deep is enough ([parseExpressionFuel_total] below); the [None]
    branch is never taken. *)
Definition parseExpression (exprStr : str) : throws Expression :=
  match parseExpressionFuel (S (length exprStr)) exprStr with
  | Some r => r
  | None => Throw (InvalidLogicalExpression exprStr)
  end.

(** ** parseVariables *)

(** [l.map((x, index) => f(index, x))] where the callback may throw: the
    elements are visited in order and the first exception ends the map. *)
Fixpoint mapThrows {A B} (f : nat -> A -> throws B) (index : nat) (l : list A)
    : throws (list B) :=
  match l with
  | [] => Ok []
  | x :: l' =>
      do y <- f index x;
      do ys <- mapThrows f (S index) l';
      Ok (y :: ys)
  end.

(** [block.split('\n').filter(line => line.trim())] *)
Definition nonBlankLines (block : str) : list str :=
  List.filter (fun line => negb (isEmpty (trim line))) (split block 10%N).

(** The callback of [parseVariables] on one line. *)
Definition parseVariable (blockName : str) (index : nat) (line : str)
    : throws Variable_ :=
  let parts := map trim (split line (chr "=")) in
  if negb (length parts =? 2)%nat
  then Throw (InvalidVariableDeclaration blockName (index + 1) line)
  else Ok {| name := nth 0 parts []; value := nth 1 parts [] |}.

Definition parseVariables (block blockName : str) : throws (list Variable_) :=
  mapThrows (parseVariable blockName) 0 (nonBlankLines block).

(** ** Regular expressions

    The patterns of the source are sequences of literals and of greedy
    repetitions of one character class, some of them captured. A greedy
    repetition first takes the longest run and gives characters back one
    at a time until the rest of the pattern matches. *)
Inductive Atom :=
| Lit (a : str)                           (* the characters of [a] *)
| Many (min : nat) (p : char -> bool)     (* [min] or more of class [p] *)
| Group (min : nat) (p : char -> bool).   (* the same, captured *)

Fixpoint runLength (p : char -> bool) (s : str) : nat :=
  match s with
  | c :: s' => if p c then S (runLength p s') else O
  | [] => O
  end.

(** Try [k], [k - 1], ... down to [min] characters. *)
Fixpoint backoff {R} (try : nat -> option R) (min k : nat) : option R :=
  if (k <? min)%nat then None
  else match try k with
       | Some r => Some r
       | None => match k with
                 | O => None
                 | S k' => backoff try min k'
                 end
       end.

(** Match the pattern at the start of [s]: the captured groups and the
    text left after the match. *)
Fixpoint matchHere (re : list Atom) (s : str) : option (list str * str) :=
  match re with
  | [] => Some ([], s)
  | Lit a :: re' =>
      if prefixb a s then matchHere re' (drop (length a) s) else None
  | Many min p :: re' =>
      backoff (fun k => matchHere re' (drop k s)) min (runLength p s)
  | Group min p :: re' =>
      backoff (fun k => match matchHere re' (drop k s) with
                        | Some (groups, rest) => Some (take k s :: groups, rest)
                        | None => None
                        end)
        min (runLength p s)
  end.

(** [s.match(re)] for a pattern without the [g] flag: the groups of the
    leftmost match. *)
Fixpoint exec (re : list Atom) (s : str) : option (list str) :=
  match matchHere re s with
  | Some (groups, _) => Some groups
  | None => match s with
            | [] => None
            | _ :: s' => exec re s'
            end
  end.

(** Line terminators, which [.] does not match. *)
Definition isLineTerminator (c : char) : bool :=
  ((c =? 10) || (c =? 13) || (c =? 8232) || (c =? 8233))%N.

Definition isDot (c : char) : bool := negb (isLineTerminator c).

(** [\w]: ASCII letters, digits and the underscore. *)
Definition isWordChar (c : char) : bool :=
  (((65 <=? c) && (c <=? 90)) || ((97 <=? c) && (c <=? 122))
   || ((48 <=? c) && (c <=? 57)) || (c =? 95))%N.

(** ** parseRules *)

(** The pattern of a rule line, written here with spaces between its
    parts: [IF  \s+  ( . * )  \s+  THEN  \s+  ( \w+ )]. *)
Definition ruleRegex : list Atom :=
  [ Lit (lit "IF"); Many 1 isWhiteSpace; Group 0 isDot; Many 1 isWhiteSpace;
    Lit (lit "THEN"); Many 1 isWhiteSpace; Group 1 isWordChar ].

(** The callback of [parseRules] on one line. *)
Definition parseRule (index : nat) (line : str) : throws Rule :=
  match exec ruleRegex line with
  | None => Throw (InvalidRule (index + 1) line)
  | Some groups =>
      let conditionsStr := nth 0 groups [] in
      let result := nth 1 groups [] in
      match parseExpression conditionsStr with
      | Ok expression => Ok {| expression := expression; result := result |}
      | Throw error => Throw (ErrorInRule (index + 1) line error)
      end
  end.

Definition parseRules (block : str) : throws (list Rule) :=
  mapThrows parseRule 0 (nonBlankLines block).

(** The body of [parseInput] once the three blocks are extracted: any
    error is wrapped once more. *)
Definition parseBlocks (stmtBlock resultsBlock rulesBlock : str)
    : throws LanguageInput :=
  match
    (do statements <- parseVariables stmtBlock (lit "stmt");
     do results <- parseVariables resultsBlock (lit "results");
     do rules <- parseRules rulesBlock;
     Ok {| statements := statements; results := results; rules := rules |})
  with
  | Ok data => Ok data
  | Throw error => Throw (FailedToParseInput error)
  end.

(** ** The evaluator and the rule loop (the script of [generateHTML]) *)

(** The answers object, filled from the form's entries, as a finite map: a
    key that was never set reads as [undefined] or as a member inherited
    from the object prototype, neither of which is ['yes'] or ['no']; both
    are [None] here. *)
Fixpoint evaluateExpression (expr : Expression) (answers : gmap str str) : bool :=
  match expr with
  | ExprCondition condition =>
      let answer := answers !! variable condition in
      if negated condition then bool_decide (answer = Some (lit "no"))
      else bool_decide (answer = Some (lit "yes"))
  | ExprLogical operator l r =>
      let left := evaluateExpression l answers in
      let right := evaluateExpression r answers in
      if str_eqb operator (lit "AND") then left && right
      else if str_eqb operator (lit "OR") then left || right
      else false
  end.

(** [formData.forEach((value, key) => { answers[key] = value; })], the
    entries of the form being strings. Assigning a string to the key
    [__proto__] of an object leaves the object as it is. *)
Definition collectAnswers (formData : list (str * str)) : gmap str str :=
  fold_left (fun answers entry =>
               if str_eqb entry.1 (lit "__proto__") then answers
               else <[entry.1 := entry.2]> answers)
    formData ∅.

(** [allResults.find(r => r.name === rule.result)] *)
Definition findResult (allResults : list Variable_) (rule : Rule)
    : option Variable_ :=
  List.find (fun r => str_eqb (name r) (result rule)) allResults.

(** The body of [rules.forEach] in the submit handler; [selected] is the
    handler's variable [result]. *)
Definition applyRule (allResults : list Variable_) (answers : gmap str str)
    (selected : str) (rule : Rule) : str :=
  if evaluateExpression (expression rule) answers then
    match findResult allResults rule with
    | Some resultVar => value resultVar
    | None => selected
    end
  else selected.

(** [let result = ''; rules.forEach(...)] *)
Definition selectResult (rules : list Rule) (allResults : list Variable_)
    (answers : gmap str str) : str :=
  fold_left (applyRule allResults answers) rules [].

(** What the handler shows, [result || fallback], when no description was
    typed: [None] stands for the fallback text (no result selected). *)
Definition shownResult (result : str) : option str :=
  if isEmpty result then None else Some result.

(** ** Declared results

    What it is for the result name of a rule to resolve, stated on the
    list of declared results: [resultVar] is the first declared result
    whose name is the result name of [rule]. *)
Definition resolvesTo (allResults : list Variable_) (rule : Rule)
    (resultVar : Variable_) : Prop :=
  exists before after : list Variable_,
    allResults = before ++ resultVar :: after
    /\ name resultVar = result rule
    /\ forall r, r ∈ before -> name r <> result rule.

(** No declared result has the result name of [rule]. *)
Definition unresolved (allResults : list Variable_) (rule : Rule) : Prop :=
  forall r, r ∈ allResults -> name r <> result rule.

(** ** Top-level operator positions

    What the scan of [parseExpression] looks for, stated without the loop:
    the depth counter after a prefix is the number of its opening minus the
    number of its closing parentheses. *)
Fixpoint netDepth (s : str) : Z :=
  match s with
  | [] => 0
  | c :: s' =>
      (if (c =? chr "(")%N then 1 else 0) - (if (c =? chr ")")%N then 1 else 0)
      + netDepth s'
  end.

(** The counter once the character at index [i] has been counted. *)
Definition depthAt (s : str) (i : nat) : Z := netDepth (take (S i) s).

(** [AND] or [OR] starts at index [i] and the counter is 0 there. *)
Definition operatorAt (s : str) (i : nat) : bool :=
  (depthAt s i =? 0)
  && (startsWith s (lit "AND") i || startsWith s (lit "OR") i).

(** The test that guards the stripping of the outer characters. *)
Definition wrapped (s : str) : bool :=
  startsWith s (lit "(") 0 && endsWith s (lit ")").

(** The conditions at the leaves of a tree, left to right. *)
Fixpoint leaves (e : Expression) : list Condition :=
  match e with
  | ExprCondition c => [c]
  | ExprLogical _ l r => leaves l ++ leaves r
  end.

(** The operator fields of the [ExprLogical] nodes of a tree. *)
Fixpoint operators (e : Expression) : list str :=
  match e with
  | ExprCondition _ => []
  | ExprLogical op l r => op :: operators l ++ operators r
  end.

(** ** The [THEN] that ends a condition *)



(** ** A worked example: two questions, two results, two rules *)

Definition exampleInput : throws LanguageInput :=
  parseBlocks
    (lit "a = Q1
    b = Q2")
    (lit "r1 = Outcome1
    r2 = Outcome2")
    (lit "IF a AND b THEN r1
    IF a THEN r2").

Definition exampleData : LanguageInput :=
  {| statements := [ {| name := lit "a"; value := lit "Q1" |};
                     {| name := lit "b"; value := lit "Q2" |} ];
     results := [ {| name := lit "r1"; value := lit "Outcome1" |};
                  {| name := lit "r2"; value := lit "Outcome2" |} ];
     rules :=
       [ {| expression :=
              ExprLogical (lit "AND")
                (ExprCondition {| variable := lit "a"; negated := false |})
                (ExprCondition {| variable := lit "b"; negated := false |});
            result := lit "r1" |};
         {| expression :=
              ExprCondition {| variable := lit "a"; negated := false |};
            result := lit "r2" |} ] |}.

(** ** parseInput: the three blocks *)

(** Try [k], [k + 1], ... up to [k + n] characters: a lazy repetition
    takes the shortest run first. *)
Fixpoint forward {R} (try : nat -> option R) (k n : nat) : option R :=
  match try k with
  | Some r => Some r
  | None => match n with
            | O => None
            | S n' => forward try (S k) n'
            end
  end.

(** The block patterns of [parseInput], written here with spaces between
    their parts: [open  \s*  ( any *? )  \s*  close], where [any] is the
    class of all characters and [*?] the lazy repetition. First the end of
    the pattern, [\s*  close], at the start of [s3], the group being
    [group]. *)
Definition matchClose (close s3 group : str) : option str :=
  backoff (fun k3 => if prefixb close (drop k3 s3) then Some group else None)
    0 (runLength isWhiteSpace s3).

(** [( any *? )  \s*  close] at the start of [s2]. *)
Definition matchLazy (close s2 : str) : option str :=
  forward (fun k2 => matchClose close (drop k2 s2) (take k2 s2)) 0 (length s2).

(** The whole pattern at the start of [s]: the captured group. *)
Definition matchBlockHere (open close s : str) : option str :=
  if prefixb open s then
    let s1 := drop (length open) s in
    backoff (fun k1 => matchLazy close (drop k1 s1))
      0 (runLength isWhiteSpace s1)
  else None.

(** [input.match(re)?.[1]]: the group of the leftmost match. *)
Fixpoint execBlock (open close s : str) : option str :=
  match matchBlockHere open close s with
  | Some group => Some group
  | None => match s with
            | [] => None
            | _ :: s' => execBlock open close s'
            end
  end.

(** [re.test(input)] *)
Definition testBlock (open close input : str) : bool :=
  match execBlock open close input with
  | Some _ => true
  | None => false
  end.

(** What a call of [parseInput] does: it returns the parsed data, throws
    for a missing block (before the [try], so this error is not wrapped),
    or throws the wrapped error of a block. *)
Inductive ParseInputResult :=
| Returns (data : LanguageInput)
| ThrowsMissingBlock (blockName : str)
| Throws (error : SyntaxError).

Definition parseInput (input : str) : ParseInputResult :=
  if negb (testBlock (lit "stmt") (lit "endstmt") input)
  then ThrowsMissingBlock (lit "stmt")
  else if negb (testBlock (lit "results") (lit "endresults") input)
  then ThrowsMissingBlock (lit "results")
  else if negb (testBlock (lit "rules") (lit "endrules") input)
  then ThrowsMissingBlock (lit "rules")
  else
    let stmtBlock :=
      default [] (execBlock (lit "stmt") (lit "endstmt") input) in
    let resultsBlock :=
      default [] (execBlock (lit "results") (lit "endresults") input) in
    let rulesBlock :=
      default [] (execBlock (lit "rules") (lit "endrules") input) in
    match parseBlocks stmtBlock resultsBlock rulesBlock with
    | Ok data => Returns data
    | Throw error => Throws error
    end.

(** [close] occurs in [input] somewhere after an occurrence of [open]. *)
Definition hasBlock (open close input : str) : Prop :=
  exists pre mid post : str, input = pre ++ open ++ mid ++ close ++ post.

(** The example input of the README. *)
Definition readmeInput : str :=
  lit "stmt
    fan_noise = Is your computer making loud fan noises?
    no_boot = Does your computer fail to start up?
    graphics_issues = Are you seeing graphical glitches?
endstmt

results
    overheating = Your system may be overheating
    psu_fault = Power supply unit may be faulty
    gpu_issue = Graphics card needs attention
endresults

rules
    IF fan_noise AND no_boot THEN overheating
    IF no_boot THEN psu_fault
    IF graphics_issues AND (fan_noise OR no_boot) THEN gpu_issue
endrules
".

(** ** Trimmed strings *)

(** The first character, if any, is not white space. *)
Definition headNotSpace (t : str) : Prop :=
  forall (c : char) (t' : str), t = c :: t' -> isWhiteSpace c = false.

(** The last character, if any, is not white space. *)
Definition lastNotSpace (t : str) : Prop :=
  forall (t' : str) (c : char), t = t' ++ [c] -> isWhiteSpace c = false.

(** * Properties *)

(** ** Lengths: every recursive call of [parseExpression] is on a shorter
    string *)

Lemma length_trimStart (s : str) : (length (trimStart s) <= length s)%nat.
Proof.
  induction s as [|c s IH]; simpl; [lia|].
  destruct (isWhiteSpace c); simpl; lia.
Qed.

Lemma length_trimEnd (s : str) : (length (trimEnd s) <= length s)%nat.
Proof.
  unfold trimEnd. rewrite length_rev.
  etransitivity; [apply length_trimStart|]. by rewrite length_rev.
Qed.

Lemma length_trim (s : str) : (length (trim s) <= length s)%nat.
Proof.
  unfold trim. etransitivity; [apply length_trimEnd|apply length_trimStart].
Qed.

Lemma length_substring (s : str) (a b : nat) :
  (a <= b)%nat -> (length (substring s a b) <= b - a)%nat.
Proof.
  intros Hab. unfold substring. rewrite length_take, length_drop. lia.
Qed.

Lemma length_substringFrom (s : str) (a : nat) :
  length (substringFrom s a) = (length s - a)%nat.
Proof.
  unfold substringFrom, substring. rewrite length_take, length_drop. lia.
Qed.

Lemma length_slice_inner (s : str) :
  s <> [] -> (length (slice s 1 (-1)) < length s)%nat.
Proof.
  intros Hs. unfold slice. rewrite length_take, length_drop.
  destruct s as [|c s]; [done|]. simpl length.
  change (1 <? 0) with false. change (-1 <? 0) with true. cbv iota. lia.
Qed.

Lemma scanOperator_bounds (s : str) (n i : nat) (depth : Z) (k : nat) :
  scanOperator s n i depth = Some k -> (i <= k < length s)%nat.
Proof.
  revert i depth. induction n as [|n IH]; intros i depth; simpl; [done|].
  destruct (s !! i) as [c|] eqn:Hc; [|done].
  apply lookup_lt_Some in Hc.
  match goal with |- context [if ?b then Some i else _] => destruct b end.
  - intros [= <-]. lia.
  - intros Hk. apply IH in Hk. lia.
Qed.

Lemma findOperator_lt (s : str) (i : nat) :
  findOperator s = Some i -> (i < length s)%nat.
Proof. intros H. apply scanOperator_bounds in H. lia. Qed.

Lemma startsWith_nonempty (s a : str) :
  a <> [] -> startsWith s a 0 = true -> s <> [].
Proof. destruct a, s; done. Qed.

(** ** The scan finds the first top-level operator position *)

Lemma netDepth_app (a b : str) : netDepth (a ++ b) = netDepth a + netDepth b.
Proof. induction a as [|c a IH]; simpl; lia. Qed.

Lemma depthAt_lookup (s : str) (i : nat) (c : char) :
  s !! i = Some c ->
  depthAt s i =
    let depth := netDepth (take i s) in
    let depth := if (c =? chr "(")%N then depth + 1 else depth in
    if (c =? chr ")")%N then depth - 1 else depth.
Proof.
  intros Hc. unfold depthAt. rewrite (take_S_r _ _ _ Hc), netDepth_app. simpl.
  destruct (c =? chr "(")%N eqn:Ho, (c =? chr ")")%N eqn:Hcl;
    first [ lia | apply N.eqb_eq in Ho, Hcl; rewrite Ho in Hcl; discriminate ].
Qed.

Lemma prefixb_true (a s : str) :
  prefixb a s = true <-> exists s', s = a ++ s'.
Proof.
  revert s. induction a as [|x a IH]; intros s; simpl.
  - split; [eauto|done].
  - destruct s as [|y s]; [split; [done|by intros [? ?]]|].
    rewrite andb_true_iff, N.eqb_eq, IH. split.
    + intros [-> [s' ->]]. eauto.
    + intros [s' [= -> ->]]. eauto.
Qed.

Lemma prefixb_nil (a : str) : a <> [] -> prefixb a [] = false.
Proof. by destruct a. Qed.

Lemma operatorAt_ge (s : str) (j : nat) :
  (length s <= j)%nat -> operatorAt s j = false.
Proof.
  intros Hj. unfold operatorAt, startsWith. rewrite drop_ge by done.
  apply andb_false_r.
Qed.

Lemma scanOperator_spec (s : str) (n i : nat) :
  (n + i = length s)%nat ->
  match scanOperator s n i (netDepth (take i s)) with
  | Some k => (i <= k)%nat /\ operatorAt s k = true
              /\ forall j, (i <= j < k)%nat -> operatorAt s j = false
  | None => forall j, (i <= j)%nat -> operatorAt s j = false
  end.
Proof.
  revert i. induction n as [|n IH]; intros i Hn; simpl.
  - intros j Hj. apply operatorAt_ge. lia.
  - destruct (s !! i) as [c|] eqn:Hc.
    2:{ apply lookup_ge_None in Hc. lia. }
    pose proof (depthAt_lookup s i c Hc) as Hd. cbv zeta in Hd. rewrite <- Hd.
    fold (operatorAt s i). destruct (operatorAt s i) eqn:Hop.
    + split; [lia|]. split; [done|]. intros j Hj. lia.
    + specialize (IH (S i)). unfold depthAt in IH |- *.
      destruct (scanOperator s n (S i) (netDepth (take (S i) s))) as [k|].
      * destruct IH as (Hk & Hopk & Hfirst); [lia|].
        split; [lia|]. split; [done|]. intros j Hj.
        destruct (decide (j = i)) as [->|]; [done|]. apply Hfirst. lia.
      * intros j Hj. destruct (decide (j = i)) as [->|]; [done|].
        apply IH; lia.
Qed.

Lemma findOperator_Some (s : str) (i : nat) :
  findOperator s = Some i <->
  operatorAt s i = true /\ forall j, (j < i)%nat -> operatorAt s j = false.
Proof.
  unfold findOperator. pose proof (scanOperator_spec s (length s) 0) as H.
  simpl in H. destruct (scanOperator s (length s) 0 0) as [k|].
  - destruct H as (_ & Hk & Hfirst); [lia|]. split.
    + intros [= <-]. split; [done|]. intros j Hj. apply Hfirst. lia.
    + intros [Hi Hfi]. f_equal.
      destruct (Nat.lt_trichotomy k i) as [Hlt|[->|Hgt]]; [|done|].
      * rewrite Hfi in Hk by done. discriminate.
      * rewrite Hfirst in Hi by lia. discriminate.
  - split; [done|]. intros [Hi _]. rewrite H in Hi by lia. discriminate.
Qed.

Lemma findOperator_None (s : str) :
  findOperator s = None <-> forall i, operatorAt s i = false.
Proof.
  unfold findOperator. pose proof (scanOperator_spec s (length s) 0) as H.
  simpl in H. destruct (scanOperator s (length s) 0 0) as [k|].
  - destruct H as (_ & Hk & _); [lia|]. split; [done|].
    intros Hall. rewrite Hall in Hk. discriminate.
  - split; [|done]. intros _ i. apply H; lia.
Qed.

(** ** The recursion of [parseExpression] *)

(** A call only consults [self] on strings shorter than its argument. *)
Lemma parseExpressionBody_ext (f g : str -> option (throws Expression)) (s : str) :
  (forall t : str, (length t < length s)%nat -> f t = g t) ->
  parseExpressionBody f s = parseExpressionBody g s.
Proof.
  intros Hfg. unfold parseExpressionBody.
  pose proof (length_trim s) as Htrim.
  destruct (startsWith (trim s) (lit "(") 0 && endsWith (trim s) (lit ")")) eqn:Hw.
  - apply andb_prop in Hw as [Hw _].
    apply startsWith_nonempty in Hw; [|done].
    apply Hfg. pose proof (length_slice_inner (trim s) Hw). lia.
  - destruct (findOperator (trim s)) as [i|] eqn:Hop; [|done].
    apply findOperator_lt in Hop.
    destruct (isEmpty _ || isEmpty _); [done|].
    rewrite !Hfg; [done| |].
    + pose proof (length_trim (substringFrom (trim s) (i + 3))).
      pose proof (length_substringFrom (trim s) (i + 3)). lia.
    + pose proof (length_trim (substring (trim s) 0 i)).
      pose proof (length_substring (trim s) 0 i). lia.
Qed.

Lemma parseExpressionFuel_stable (n m : nat) (s : str) :
  (length s < n)%nat -> (length s < m)%nat ->
  parseExpressionFuel n s = parseExpressionFuel m s.
Proof.
  revert m s. induction n as [|n IH]; intros m s Hn Hm; [lia|].
  destruct m as [|m]; [lia|]. simpl.
  apply parseExpressionBody_ext. intros t Ht. apply IH; lia.
Qed.

(** The parser terminates: no string runs out of fuel. *)
Lemma parseExpressionFuel_total (n : nat) (s : str) :
  (length s < n)%nat -> is_Some (parseExpressionFuel n s).
Proof.
  revert s. induction n as [|n IH]; intros s Hn; [lia|]. simpl.
  unfold parseExpressionBody.
  pose proof (length_trim s) as Htrim.
  destruct (startsWith (trim s) (lit "(") 0 && endsWith (trim s) (lit ")")) eqn:Hw.
  - apply andb_prop in Hw as [Hw _].
    apply startsWith_nonempty in Hw; [|done].
    apply IH. pose proof (length_slice_inner (trim s) Hw). lia.
  - destruct (findOperator (trim s)) as [i|] eqn:Hop; [|done].
    apply findOperator_lt in Hop.
    destruct (isEmpty _ || isEmpty _); [done|].
    destruct (IH (trim (substring (trim s) 0 i))) as [l ->].
    { pose proof (length_trim (substring (trim s) 0 i)).
      pose proof (length_substring (trim s) 0 i). lia. }
    destruct (IH (trim (substringFrom (trim s) (i + 3)))) as [r ->].
    { pose proof (length_trim (substringFrom (trim s) (i + 3))).
      pose proof (length_substringFrom (trim s) (i + 3)). lia. }
    destruct l, r; done.
Qed.

Lemma parseExpressionFuel_spec (n : nat) (s : str) :
  (length s < n)%nat -> parseExpressionFuel n s = Some (parseExpression s).
Proof.
  intros Hn. unfold parseExpression.
  rewrite (parseExpressionFuel_stable n (S (length s))) by lia.
  destruct (parseExpressionFuel_total (S (length s)) s) as [r ->]; [lia|done].
Qed.

(** [parseExpression] satisfies the defining equation of the source
    function. *)
Lemma parseExpression_unfold (exprStr : str) :
  Some (parseExpression exprStr) =
  parseExpressionBody (fun t => Some (parseExpression t)) exprStr.
Proof.
  rewrite <- (parseExpressionFuel_spec (S (length exprStr))) by lia. simpl.
  apply parseExpressionBody_ext. intros t Ht.
  apply parseExpressionFuel_spec. lia.
Qed.

(** The three cases of a call, by the guard of the stripping and the
    outcome of the scan. *)
Lemma parseExpression_wrapped (s : str) :
  wrapped (trim s) = true ->
  parseExpression s = parseExpression (slice (trim s) 1 (-1)).
Proof.
  intros Hw. pose proof (parseExpression_unfold s) as H.
  unfold parseExpressionBody in H. fold (wrapped (trim s)) in H.
  rewrite Hw in H. by injection H.
Qed.

Lemma parseExpression_split (s : str) (i : nat) :
  wrapped (trim s) = false ->
  findOperator (trim s) = Some i ->
  parseExpression s =
    let operator := trim (substring (trim s) i (i + 3)) in
    let left := trim (substring (trim s) 0 i) in
    let right := trim (substringFrom (trim s) (i + 3)) in
    if isEmpty left || isEmpty right
    then Throw (InvalidLogicalExpression (trim s))
    else do l <- parseExpression left;
         do r <- parseExpression right;
         Ok (ExprLogical operator l r).
Proof.
  intros Hw Hop. pose proof (parseExpression_unfold s) as H.
  unfold parseExpressionBody in H. fold (wrapped (trim s)) in H.
  rewrite Hw, Hop in H. cbv zeta.
  destruct (isEmpty _ || isEmpty _); [by injection H|].
  destruct (parseExpression (trim (substring (trim s) 0 i))) as [l|e];
    [|by injection H].
  destruct (parseExpression (trim (substringFrom (trim s) (i + 3)))) as [r|e];
    by injection H.
Qed.

Lemma parseExpression_leaf (s : str) :
  wrapped (trim s) = false ->
  findOperator (trim s) = None ->
  parseExpression s =
    do condition <- parseCondition (trim s); Ok (ExprCondition condition).
Proof.
  intros Hw Hop. pose proof (parseExpression_unfold s) as H.
  unfold parseExpressionBody in H. fold (wrapped (trim s)) in H.
  rewrite Hw, Hop in H. by injection H.
Qed.

(** Induction along the calls of [parseExpression]. *)
Lemma parseExpression_induction (P : str -> throws Expression -> Prop) :
  (forall s, wrapped (trim s) = true ->
     P (slice (trim s) 1 (-1)) (parseExpression (slice (trim s) 1 (-1))) ->
     P s (parseExpression (slice (trim s) 1 (-1)))) ->
  (forall s i, wrapped (trim s) = false -> findOperator (trim s) = Some i ->
     isEmpty (trim (substring (trim s) 0 i))
       || isEmpty (trim (substringFrom (trim s) (i + 3))) = true ->
     P s (Throw (InvalidLogicalExpression (trim s)))) ->
  (forall s i, wrapped (trim s) = false -> findOperator (trim s) = Some i ->
     isEmpty (trim (substring (trim s) 0 i))
       || isEmpty (trim (substringFrom (trim s) (i + 3))) = false ->
     P (trim (substring (trim s) 0 i))
       (parseExpression (trim (substring (trim s) 0 i))) ->
     P (trim (substringFrom (trim s) (i + 3)))
       (parseExpression (trim (substringFrom (trim s) (i + 3)))) ->
     P s (do l <- parseExpression (trim (substring (trim s) 0 i));
          do r <- parseExpression (trim (substringFrom (trim s) (i + 3)));
          Ok (ExprLogical (trim (substring (trim s) i (i + 3))) l r))) ->
  (forall s, wrapped (trim s) = false -> findOperator (trim s) = None ->
     P s (do condition <- parseCondition (trim s); Ok (ExprCondition condition))) ->
  forall s, P s (parseExpression s).
Proof.
  intros Hwrap Hthrow Hsplit Hleaf s.
  remember (length s) as n eqn:Hn. revert s Hn.
  induction n as [n IH] using lt_wf_ind. intros s ->.
  pose proof (length_trim s) as Htrim.
  destruct (wrapped (trim s)) eqn:Hw.
  - rewrite (parseExpression_wrapped s Hw). apply Hwrap; [done|].
    apply andb_prop in Hw as Hw'. destruct Hw' as [Hw' _].
    apply startsWith_nonempty in Hw'; [|done].
    pose proof (length_slice_inner (trim s) Hw').
    eapply IH; [|reflexivity]. lia.
  - destruct (findOperator (trim s)) as [i|] eqn:Hop.
    + rewrite (parseExpression_split s i Hw Hop). cbv zeta.
      pose proof (findOperator_lt _ _ Hop) as Hi.
      destruct (isEmpty _ || isEmpty _) eqn:He.
      * by apply (Hthrow s i).
      * apply Hsplit; try done.
        -- eapply IH; [|reflexivity].
           pose proof (length_trim (substring (trim s) 0 i)).
           pose proof (length_substring (trim s) 0 i). lia.
        -- eapply IH; [|reflexivity].
           pose proof (length_trim (substringFrom (trim s) (i + 3))).
           pose proof (length_substringFrom (trim s) (i + 3)). lia.
    + rewrite (parseExpression_leaf s Hw Hop). by apply Hleaf.
Qed.


Example parseExpression_readme_rule :
  parseExpression (lit "graphics_issues AND (fan_noise OR no_boot)") =
  Ok (ExprLogical (lit "AND")
        (ExprCondition {| variable := lit "graphics_issues"; negated := false |})
        (ExprLogical (lit "OR")
           (ExprCondition {| variable := lit "fan_noise"; negated := false |})
           (ExprCondition {| variable := lit "no_boot"; negated := false |}))).
Proof. vm_compute. reflexivity. Qed.


(** The negation flag of a parsed condition is the case-sensitive test for
    [NOT], while the variable is what is left once the first [NOT] in any
    letter case is removed. *)
Lemma parseCondition_Ok (condStr : str) (c : Condition) :
  parseCondition condStr = Ok c ->
  negated c = includes condStr (lit "NOT")
  /\ variable c = trim (removeFirstIgnoreCase (lit "NOT") condStr)
  /\ variable c <> [].
Proof.
  unfold parseCondition.
  destruct (trim (removeFirstIgnoreCase (lit "NOT") condStr)) eqn:Hv;
    simpl; [done|].
  by intros [= <-].
Qed.

(** C3: [NOT] is to be recognised in any letter case. The parser removes
    the lower-case [not] of [not x] (the pattern ignores case) but tests
    for the negation with the upper-case text only, so the condition comes
    out as [x], not negated. *)
Theorem parseExpression_lowercase_not_loses_negation :
  parseExpression (lit "not x") =
    Ok (ExprCondition {| variable := lit "x"; negated := false |})
  /\ parseExpression (lit "Not x") =
    Ok (ExprCondition {| variable := lit "x"; negated := false |})
  /\ parseExpression (lit "NOT x") =
    Ok (ExprCondition {| variable := lit "x"; negated := true |}).
Proof. repeat split; by vm_compute. Qed.

(** C4: the operator of a logical node is to be [AND] or [OR]. The parser
    takes three characters at the operator position and trims them, so for
    [A OR(B)], which it accepts, the operator field is [OR(] (and the right
    operand loses its opening parenthesis). *)
Theorem parseExpression_operator_three_characters :
  parseExpression (lit "A OR(B)") =
    Ok (ExprLogical (lit "OR(")
          (ExprCondition {| variable := lit "A"; negated := false |})
          (ExprCondition {| variable := lit "B)"; negated := false |}))
  /\ operators (ExprLogical (lit "OR(")
          (ExprCondition {| variable := lit "A"; negated := false |})
          (ExprCondition {| variable := lit "B)"; negated := false |}))
     = [lit "OR("]
  /\ lit "OR(" <> lit "AND" /\ lit "OR(" <> lit "OR".
Proof. repeat split; by vm_compute. Qed.

(** C5: the outer parentheses are to be stripped only when the first one
    is closed by the last one. The parser tests the first and the last
    character only: [(A) OR (B)] is stripped to [A) OR (B], where the
    counter is -1 under the [OR], and becomes one leaf, not a logical
    node. *)
Theorem parseExpression_strips_unmatched_outer_pair :
  wrapped (trim (lit "(A) OR (B)")) = true
  /\ slice (trim (lit "(A) OR (B)")) 1 (-1) = lit "A) OR (B"
  /\ findOperator (lit "A) OR (B") = None
  /\ parseExpression (lit "(A) OR (B)") =
       Ok (ExprCondition {| variable := lit "A) OR (B"; negated := false |}).
Proof. repeat split; by vm_compute. Qed.

Lemma bind_Ok {A B} (m : throws A) (k : A -> throws B) (b : B) :
  bind m k = Ok b -> exists a, m = Ok a /\ k a = Ok b.
Proof. destruct m as [a|e]; simpl; [eauto|done]. Qed.

(** ** The operator field *)

Lemma substring_at (t : str) (i n : nat) :
  (i <= length t)%nat -> substring t i (i + n) = take n (drop i t).
Proof.
  intros Hi. unfold substring.
  replace (Nat.min (Nat.min i (length t)) (Nat.min (i + n) (length t)))
    with i by lia.
  destruct (decide (i + n <= length t)%nat) as [Hle|Hgt].
  - f_equal. lia.
  - rewrite (take_ge _ n) by (rewrite length_drop; lia).
    apply take_ge. rewrite length_drop. lia.
Qed.

Lemma operatorAt_lt (t : str) (i : nat) :
  operatorAt t i = true -> (i < length t)%nat.
Proof.
  intros H. destruct (decide (i < length t)%nat) as [|Hge]; [done|].
  rewrite operatorAt_ge in H by lia. discriminate.
Qed.

(** The trimmed three characters at an operator position: [AND], [OR], or
    [OR] with the character that follows it when that is not white
    space. *)
Lemma operatorAt_operator (t : str) (i : nat) :
  operatorAt t i = true ->
  trim (substring t i (i + 3)) = lit "AND"
  \/ trim (substring t i (i + 3)) = lit "OR"
  \/ exists c : char,
       isWhiteSpace c = false
       /\ trim (substring t i (i + 3)) = lit "OR" ++ [c].
Proof.
  intros Hop. pose proof (operatorAt_lt t i Hop) as Hi.
  rewrite substring_at by lia.
  apply andb_prop in Hop as [_ Hstart]. unfold startsWith in Hstart.
  apply orb_prop in Hstart as [Hand|Hor].
  - apply prefixb_true in Hand as [r ->]. left. by vm_compute.
  - apply prefixb_true in Hor as [r ->]. right.
    destruct r as [|c r]; [left; by vm_compute|].
    change (take 3 (lit "OR" ++ c :: r)) with (lit "OR" ++ [c]).
    destruct (isWhiteSpace c) eqn:Hc; [left|right; exists c; split; [done|]].
    + unfold trim, trimEnd. change (trimStart (lit "OR" ++ [c]))
        with (lit "OR" ++ [c]).
      change (rev (lit "OR" ++ [c])) with (c :: rev (lit "OR")).
      simpl trimStart. rewrite Hc. by vm_compute.
    + unfold trim, trimEnd. change (trimStart (lit "OR" ++ [c]))
        with (lit "OR" ++ [c]).
      change (rev (lit "OR" ++ [c])) with (c :: rev (lit "OR")).
      simpl trimStart. rewrite Hc. by vm_compute.
Qed.

(** X6: the operator of every node of a parsed tree is [AND], [OR], or [OR]
    followed by one more character that is not white space. *)
Lemma parsed_operators_shape (s : str) (e : Expression) (op : str) :
  parseExpression s = Ok e -> op ∈ operators e ->
  op = lit "AND" \/ op = lit "OR"
  \/ exists c : char, isWhiteSpace c = false /\ op = lit "OR" ++ [c].
Proof.
  revert e op.
  apply (parseExpression_induction (fun _ r => forall e op, r = Ok e ->
    op ∈ operators e ->
    op = lit "AND" \/ op = lit "OR"
    \/ exists c : char, isWhiteSpace c = false /\ op = lit "OR" ++ [c])).
  - intros s' _ IH. exact IH.
  - intros s' i _ _ _ e op [=].
  - intros s' i _ Hi _ IHl IHr e op
      (l & Hl & (r & Hr & [= <-])%bind_Ok)%bind_Ok Hop.
    simpl in Hop. apply elem_of_cons in Hop as [->|Hop].
    + apply operatorAt_operator. by apply findOperator_Some in Hi as [Hi _].
    + apply elem_of_app in Hop as [Hop|Hop]; eauto.
  - intros s' _ _ e op (c' & _ & [= <-])%bind_Ok Hop.
    simpl in Hop. by apply elem_of_nil in Hop.
Qed.

(** ** Leaves *)

(** C10 (counterexample): the variable of a leaf can contain [AND] outside
    any parentheses: in [ANOTND] no operator starts anywhere, and removing
    [NOT] leaves the variable [AND]. *)
Lemma leaf_variable_AND_after_NOT_removed :
  parseExpression (lit "ANOTND") =
    Ok (ExprCondition {| variable := lit "AND"; negated := true |})
  /\ includes (lit "AND") (lit "AND") = true
  /\ operatorAt (lit "AND") 0 = true.
Proof. repeat split; by vm_compute. Qed.

(** C10 (amended): a string in which [AND] or [OR] starts where the scan's
    counter is 0 is never parsed as a leaf, even inside an identifier
    ([ORDER] is split at index 0 and rejected for its empty left side); so
    every leaf of a parsed tree was read from a text with no such position.
    This holds of the text the leaf is read from, before [NOT] is removed
    from it, and for strings that are not stripped of their first and last
    character. *)
Theorem leaf_sources_have_no_top_level_operator :
  parseExpression (lit "ORDER") = Throw (InvalidLogicalExpression (lit "ORDER"))
  /\ (forall (s : str) (i : nat) (c : Condition),
        wrapped (trim s) = false -> operatorAt (trim s) i = true ->
        parseExpression s <> Ok (ExprCondition c))
  /\ (forall (s : str) (e : Expression) (c : Condition),
        parseExpression s = Ok e -> c ∈ leaves e ->
        exists t : str,
          parseCondition t = Ok c /\ forall i, operatorAt t i = false).
Proof.
  split; [by vm_compute|]. split.
  - intros s i c Hw Hop.
    destruct (findOperator (trim s)) as [k|] eqn:Hk.
    + rewrite (parseExpression_split s k Hw Hk). cbv zeta.
      destruct (isEmpty _ || isEmpty _); [done|].
      intros (l & _ & (r & _ & [=])%bind_Ok)%bind_Ok.
    + rewrite findOperator_None in Hk. rewrite Hk in Hop. discriminate.
  - intros s.
    apply (parseExpression_induction (fun _ r => forall e c, r = Ok e ->
      c ∈ leaves e ->
      exists t : str, parseCondition t = Ok c /\ forall i, operatorAt t i = false)).
    + intros s' _ IH. exact IH.
    + intros s' i _ _ _ e c [=].
    + intros s' i _ _ _ IHl IHr e c
        (l & Hl & (r & Hr & [= <-])%bind_Ok)%bind_Ok Hc.
      simpl in Hc. apply elem_of_app in Hc as [Hc|Hc]; eauto.
    + intros s' _ Hnone e c (c' & Hc' & [= <-])%bind_Ok Hc.
      simpl in Hc. apply list_elem_of_singleton in Hc as ->.
      exists (trim s'). split; [done|]. by apply findOperator_None.
Qed.

(** ** Declarations *)

Lemma split_nonempty (s : str) (sep : char) : split s sep <> [].
Proof.
  induction s as [|c s IH]; simpl; [done|].
  destruct (c =? sep)%N; [done|]. by destruct (split s sep).
Qed.

(** [split] cuts at every separator: one piece more than separators. *)
Lemma length_split (s : str) (sep : char) :
  length (split s sep) = S (count_occ N.eq_dec s sep).
Proof.
  induction s as [|c s IH]; simpl; [done|].
  destruct (N.eqb_spec c sep) as [->|Hne].
  - destruct (N.eq_dec sep sep); [|done]. simpl. by rewrite IH.
  - destruct (N.eq_dec c sep); [done|].
    destruct (split s sep) eqn:Hs; [by apply split_nonempty in Hs|].
    simpl in *. done.
Qed.

Lemma split_no_separator (s : str) (sep : char) :
  count_occ N.eq_dec s sep = 0%nat -> split s sep = [s].
Proof.
  induction s as [|c s IH]; simpl; [done|].
  destruct (N.eqb_spec c sep) as [->|Hne].
  - destruct (N.eq_dec sep sep); done.
  - destruct (N.eq_dec c sep); [done|]. intros H. by rewrite IH.
Qed.

Lemma split_one_separator (s : str) (sep : char) :
  count_occ N.eq_dec s sep = 1%nat ->
  exists before after : str,
    s = before ++ sep :: after /\ split s sep = [before; after]
    /\ (sep ∉ before) /\ (sep ∉ after).
Proof.
  induction s as [|c s IH]; simpl; [done|].
  destruct (N.eqb_spec c sep) as [->|Hne].
  - destruct (N.eq_dec sep sep); [|done]. intros [= H].
    exists [], s. rewrite (split_no_separator s sep H).
    split; [done|]. split; [done|]. split; [apply not_elem_of_nil|].
    rewrite list_elem_of_In. by apply count_occ_not_In in H.
  - destruct (N.eq_dec c sep); [done|]. intros H.
    destruct (IH H) as (before & after & -> & Hsplit & Hb & Ha).
    exists (c :: before), after. rewrite Hsplit.
    split; [done|]. split; [done|]. split; [|done].
    apply not_elem_of_cons. split; [congruence|done].
Qed.




Lemma parseVariable_one (blockName : str) (index : nat) (line : str) :
  count_occ N.eq_dec line (chr "=") = 1%nat ->
  exists before after : str,
    line = before ++ chr "=" :: after
    /\ (chr "=" ∉ before) /\ (chr "=" ∉ after)
    /\ parseVariable blockName index line =
         Ok {| name := trim before; value := trim after |}.
Proof.
  intros H. unfold parseVariable. rewrite length_map, length_split.
  destruct (split_one_separator _ _ H)
    as (before & after & Hline & Hsplit & Hb & Ha).
  exists before, after. rewrite H, Hsplit. by simpl.
Qed.

Lemma parseVariable_not_one (blockName : str) (index : nat) (line : str) :
  count_occ N.eq_dec line (chr "=") <> 1%nat ->
  parseVariable blockName index line =
    Throw (InvalidVariableDeclaration blockName (index + 1) line).
Proof.
  intros H. unfold parseVariable. rewrite length_map, length_split.
  destruct (Nat.eqb_spec (S (count_occ N.eq_dec line (chr "="))) 2); [lia|done].
Qed.


(** ** The evaluator *)

(** C6: a condition that is not negated holds exactly when the answer to
    its variable is [yes], a negated one exactly when the answer is [no];
    any other answer, and no answer at all, makes both false. *)
Theorem evaluateExpression_condition (v : str) (answers : gmap str str) :
  (evaluateExpression (ExprCondition {| variable := v; negated := false |}) answers
     = true <-> answers !! v = Some (lit "yes"))
  /\ (evaluateExpression (ExprCondition {| variable := v; negated := true |}) answers
     = true <-> answers !! v = Some (lit "no"))
  /\ (forall n : bool,
        answers !! v <> Some (lit "yes") -> answers !! v <> Some (lit "no") ->
        evaluateExpression (ExprCondition {| variable := v; negated := n |}) answers
          = false)
  /\ (forall n : bool,
        answers !! v = None ->
        evaluateExpression (ExprCondition {| variable := v; negated := n |}) answers
          = false).
Proof.
  simpl. split; [apply bool_decide_eq_true|]. split; [apply bool_decide_eq_true|].
  split.
  - intros [] Hyes Hno; by apply bool_decide_eq_false.
  - intros [] ->; by apply bool_decide_eq_false.
Qed.

(** C7: an [AND] node evaluates to the conjunction and an [OR] node to the
    disjunction of the values of its two children; every tree has a boolean
    value under every answers object, and under the empty one that value
    is false. *)
Theorem evaluateExpression_logical (L R : Expression) (answers : gmap str str) :
  evaluateExpression (ExprLogical (lit "AND") L R) answers
    = evaluateExpression L answers && evaluateExpression R answers
  /\ evaluateExpression (ExprLogical (lit "OR") L R) answers
    = evaluateExpression L answers || evaluateExpression R answers
  /\ (forall e : Expression,
        evaluateExpression e answers = true
        \/ evaluateExpression e answers = false)
  /\ (forall e : Expression, evaluateExpression e ∅ = false).
Proof.
  split; [done|]. split; [done|]. split.
  - intros e. destruct (evaluateExpression e answers); auto.
  - induction e as [[v n]|op l IHl r IHr]; simpl.
    + rewrite lookup_empty. by destruct n.
    + rewrite IHl, IHr. by repeat case_match.
Qed.

(** ** The rule loop *)

Lemma selectResult_app (before after : list Rule) (allResults : list Variable_)
    (answers : gmap str str) :
  selectResult (before ++ after) allResults answers =
  fold_left (applyRule allResults answers) after
    (selectResult before allResults answers).
Proof. apply fold_left_app. Qed.

Lemma applyRule_skip (allResults : list Variable_) (answers : gmap str str)
    (selected : str) (rule : Rule) :
  evaluateExpression (expression rule) answers = false
    \/ findResult allResults rule = None ->
  applyRule allResults answers selected rule = selected.
Proof.
  unfold applyRule. intros [->| ->]; [done|]. by destruct (evaluateExpression _ _).
Qed.

Lemma fold_applyRule_skip (allResults : list Variable_) (answers : gmap str str)
    (rules : list Rule) (selected : str) :
  (forall r, r ∈ rules ->
     evaluateExpression (expression r) answers = false
       \/ findResult allResults r = None) ->
  fold_left (applyRule allResults answers) rules selected = selected.
Proof.
  revert selected. induction rules as [|r rules IH]; intros selected H; [done|].
  simpl. rewrite applyRule_skip by (apply H; left). apply IH.
  intros r' Hr'. apply H. by right.
Qed.

Example exampleInput_parsed : exampleInput = Ok exampleData.
Proof. by vm_compute. Qed.

(** Both rules match: the later one decides. Only the second matches: it
    decides. None matches: nothing is selected. *)
Example example_both_match :
  selectResult (rules exampleData) (results exampleData)
    (collectAnswers [(lit "a", lit "yes"); (lit "b", lit "yes")])
  = lit "Outcome2".
Proof. by vm_compute. Qed.

Example example_second_matches :
  selectResult (rules exampleData) (results exampleData)
    (collectAnswers [(lit "a", lit "yes"); (lit "b", lit "no")])
  = lit "Outcome2".
Proof. by vm_compute. Qed.

Example example_none_matches :
  shownResult
    (selectResult (rules exampleData) (results exampleData)
       (collectAnswers [(lit "a", lit "no"); (lit "b", lit "no")]))
  = None.
Proof. by vm_compute. Qed.

Lemma find_Some_first {A} (p : A -> bool) (l : list A) (x : A) :
  List.find p l = Some x ->
  exists pre post, l = pre ++ x :: post /\ p x = true
                   /\ forall y, y ∈ pre -> p y = false.
Proof.
  induction l as [|y l IH]; simpl; [done|].
  destruct (p y) eqn:Hy.
  - intros [= <-]. exists [], l. split; [done|]. split; [done|].
    intros z Hz. by apply elem_of_nil in Hz.
  - intros (pre & post & -> & Hx & Hpre)%IH. exists (y :: pre), post.
    split; [done|]. split; [done|].
    intros z [->|Hz]%elem_of_cons; auto.
Qed.

Lemma find_first {A} (p : A -> bool) (pre : list A) (x : A) (post : list A) :
  p x = true -> (forall y, y ∈ pre -> p y = false) ->
  List.find p (pre ++ x :: post) = Some x.
Proof.
  intros Hx. induction pre as [|y pre IH]; intros Hpre; simpl.
  - by rewrite Hx.
  - rewrite (Hpre y) by apply list_elem_of_here. apply IH.
    intros z Hz. apply Hpre. by apply list_elem_of_further.
Qed.

Lemma find_None_iff {A} (p : A -> bool) (l : list A) :
  List.find p l = None <-> forall y, y ∈ l -> p y = false.
Proof.
  induction l as [|y l IH]; simpl.
  - split; [|done]. intros _ z Hz. by apply elem_of_nil in Hz.
  - destruct (p y) eqn:Hy.
    + split; [done|]. intros H. rewrite (H y) in Hy by apply list_elem_of_here.
      done.
    + rewrite IH. split.
      * intros H z [->|Hz]%elem_of_cons; auto.
      * intros H z Hz. apply H. by apply list_elem_of_further.
Qed.

(** The lookup of a rule's result finds the first declared result of that
    name, and finds nothing exactly when no declared result has it. *)
Lemma findResult_Some (allResults : list Variable_) (rule : Rule)
    (resultVar : Variable_) :
  findResult allResults rule = Some resultVar
  <-> resolvesTo allResults rule resultVar.
Proof.
  unfold findResult, resolvesTo, str_eqb. split.
  - intros (before & after & -> & Hn & Hb)%find_Some_first.
    exists before, after. split; [done|].
    split; [by apply bool_decide_eq_true in Hn|].
    intros r Hr. specialize (Hb r Hr). by apply bool_decide_eq_false in Hb.
  - intros (before & after & -> & Hn & Hb). apply find_first.
    + by apply bool_decide_eq_true.
    + intros r Hr. apply bool_decide_eq_false. by apply Hb.
Qed.

Lemma findResult_None (allResults : list Variable_) (rule : Rule) :
  findResult allResults rule = None <-> unresolved allResults rule.
Proof.
  unfold findResult, unresolved, str_eqb. rewrite find_None_iff.
  split; intros H r Hr; specialize (H r Hr).
  - by apply bool_decide_eq_false in H.
  - by apply bool_decide_eq_false.
Qed.

(** C8: the rules are visited in declaration order. The result name of a
    rule resolves when a declared result has that name, and then to the
    first such result; the lookup finds exactly that. A rule that
    evaluates to true and whose result name resolves overwrites the
    selected text with that result's text; a rule that evaluates to false,
    and a rule whose result name no declared result has, leave it as it
    is. So the last rule in declaration order that evaluates to true and
    resolves decides the output, and nothing is selected when there is no
    such rule. *)
Theorem selectResult_last_resolved_match_wins
    (rules : list Rule) (allResults : list Variable_) (answers : gmap str str) :
  (forall (rule : Rule) (resultVar : Variable_),
     findResult allResults rule = Some resultVar
     <-> resolvesTo allResults rule resultVar)
  /\ (forall rule : Rule,
        findResult allResults rule = None <-> unresolved allResults rule)
  /\ (forall (selected : str) (rule : Rule) (resultVar : Variable_),
        evaluateExpression (expression rule) answers = true ->
        resolvesTo allResults rule resultVar ->
        applyRule allResults answers selected rule = value resultVar)
  /\ (forall (selected : str) (rule : Rule),
        evaluateExpression (expression rule) answers = false
          \/ unresolved allResults rule ->
        applyRule allResults answers selected rule = selected)
  /\ (forall (rule : Rule) (others : list Rule),
        selectResult (others ++ [rule]) allResults answers =
        applyRule allResults answers (selectResult others allResults answers) rule)
  /\ (forall (before after : list Rule) (rule : Rule) (resultVar : Variable_),
        rules = before ++ rule :: after ->
        evaluateExpression (expression rule) answers = true ->
        resolvesTo allResults rule resultVar ->
        (forall r, r ∈ after ->
           evaluateExpression (expression r) answers = false
             \/ unresolved allResults r) ->
        selectResult rules allResults answers = value resultVar)
  /\ ((forall r, r ∈ rules ->
         evaluateExpression (expression r) answers = false
           \/ unresolved allResults r) ->
      selectResult rules allResults answers = []
      /\ shownResult (selectResult rules allResults answers) = None).
Proof.
  assert (forall r,
            evaluateExpression (expression r) answers = false
              \/ unresolved allResults r ->
            evaluateExpression (expression r) answers = false
              \/ findResult allResults r = None) as Hskip.
  { intros r [H|H]; [by left|right]. by apply findResult_None. }
  split; [apply findResult_Some|]. split; [apply findResult_None|].
  split; [|split; [|split; [|split]]].
  - intros selected rule resultVar He Hf%findResult_Some.
    unfold applyRule. by rewrite He, Hf.
  - intros selected rule H. by apply applyRule_skip, Hskip.
  - intros rule others. by rewrite selectResult_app.
  - intros before after rule resultVar -> He Hf%findResult_Some Hafter.
    rewrite selectResult_app. simpl.
    rewrite fold_applyRule_skip by (intros r Hr; by apply Hskip, Hafter).
    unfold applyRule. by rewrite He, Hf.
  - intros Hnone. unfold selectResult.
    by rewrite fold_applyRule_skip by (intros r Hr; by apply Hskip, Hnone).
Qed.

(** The scenario of two rules that both match: the name [r2] of the second
    rule resolves to the second declared result, whose text is selected. *)
Lemma selectResult_last_resolved_match_wins_witness :
  resolvesTo (results exampleData)
    {| expression := ExprCondition {| variable := lit "a"; negated := false |};
       result := lit "r2" |}
    {| name := lit "r2"; value := lit "Outcome2" |}
  /\ findResult (results exampleData)
       {| expression := ExprCondition {| variable := lit "a"; negated := false |};
          result := lit "r2" |}
     = Some {| name := lit "r2"; value := lit "Outcome2" |}
  /\ selectResult (rules exampleData) (results exampleData)
       (collectAnswers [(lit "a", lit "yes"); (lit "b", lit "yes")])
     = lit "Outcome2".
Proof.
  assert (resolvesTo (results exampleData)
            {| expression :=
                 ExprCondition {| variable := lit "a"; negated := false |};
               result := lit "r2" |}
            {| name := lit "r2"; value := lit "Outcome2" |}) as Hres.
  { exists [ {| name := lit "r1"; value := lit "Outcome1" |} ], [].
    split; [reflexivity|]. split; [reflexivity|].
    intros r Hr. apply list_elem_of_singleton in Hr. rewrite Hr.
    vm_compute. discriminate. }
  destruct (selectResult_last_resolved_match_wins (rules exampleData)
              (results exampleData)
              (collectAnswers [(lit "a", lit "yes"); (lit "b", lit "yes")]))
    as (Hfind & _ & _ & _ & _ & Hlast & _).
  split; [exact Hres|]. split; [apply Hfind; exact Hres|].
  apply (Hlast
           [ {| expression :=
                  ExprLogical (lit "AND")
                    (ExprCondition {| variable := lit "a"; negated := false |})
                    (ExprCondition {| variable := lit "b"; negated := false |});
                result := lit "r1" |} ]
           []
           {| expression :=
                ExprCondition {| variable := lit "a"; negated := false |};
              result := lit "r2" |}
           {| name := lit "r2"; value := lit "Outcome2" |}).
  - reflexivity.
  - vm_compute; reflexivity.
  - exact Hres.
  - intros r Hr. by apply elem_of_nil in Hr.
Defined.

(** ** Regular expressions *)

Lemma backoff_Some {R} (try : nat -> option R) (min k : nat) (r : R) :
  backoff try min k = Some r ->
  exists j, (min <= j <= k)%nat /\ try j = Some r
            /\ forall j', (j < j' <= k)%nat -> try j' = None.
Proof.
  induction k as [|k IH]; simpl.
  - destruct (Nat.ltb_spec 0 min); [done|].
    destruct (try 0%nat) eqn:Ht; [|done]. intros [= ->].
    exists 0%nat. split; [lia|]. split; [done|]. intros j' Hj'. lia.
  - destruct (Nat.ltb_spec (S k) min); [done|].
    destruct (try (S k)) eqn:Ht.
    + intros [= ->]. exists (S k). split; [lia|]. split; [done|].
      intros j' Hj'. lia.
    + intros (j & Hj & Hr & Hlater)%IH. exists j.
      split; [lia|]. split; [done|]. intros j' Hj'.
      destruct (decide (j' = S k)) as [->|]; [done|]. apply Hlater. lia.
Qed.

Lemma backoff_is_Some {R} (try : nat -> option R) (min k j : nat) :
  (min <= j <= k)%nat -> is_Some (try j) -> is_Some (backoff try min k).
Proof.
  intros Hj Hs. induction k as [|k IH]; simpl.
  - assert (j = 0%nat) as -> by lia.
    destruct (Nat.ltb_spec 0 min); [lia|]. by destruct Hs as [r ->].
  - destruct (Nat.ltb_spec (S k) min); [lia|].
    destruct (try (S k)) eqn:Ht; [done|].
    destruct (decide (j = S k)) as [->|].
    + rewrite Ht in Hs. by destruct Hs.
    + apply IH. lia.
Qed.

Lemma runLength_take (p : char -> bool) (s : str) (k : nat) :
  (k <= runLength p s)%nat ->
  Forall (fun c => p c = true) (take k s) /\ (k <= length s)%nat.
Proof.
  revert k. induction s as [|c s IH]; intros k Hk; simpl in *.
  - assert (k = 0%nat) as -> by lia. by split.
  - destruct k as [|k]; simpl; [split; [done|lia]|].
    destruct (p c) eqn:Hp; [|lia].
    destruct (IH k) as [Hall Hlen]; [lia|]. split; [by constructor|lia].
Qed.

Lemma runLength_prefix (p : char -> bool) (w s : str) :
  Forall (fun c => p c = true) w -> (length w <= runLength p (w ++ s))%nat.
Proof.
  induction 1 as [|c w Hc _ IH]; simpl; [lia|]. rewrite Hc. lia.
Qed.








(** ** Rule lines *)







(** ** Trimming *)

Lemma trimStart_spec (s : str) :
  exists a : str,
    s = a ++ trimStart s /\ Forall (fun c => isWhiteSpace c = true) a
    /\ headNotSpace (trimStart s).
Proof.
  induction s as [|c s (a & Hs & Ha & Hh)]; simpl.
  - exists []. split; [done|]. split; [done|]. by intros c t'.
  - destruct (isWhiteSpace c) eqn:Hc.
    + exists (c :: a). split; [by rewrite Hs at 1|]. split; [by constructor|done].
    + exists []. split; [done|]. split; [done|]. by intros c' t' [= <- <-].
Qed.

Lemma trimStart_ws (a s : str) :
  Forall (fun c => isWhiteSpace c = true) a -> trimStart (a ++ s) = trimStart s.
Proof. induction 1 as [|c a Hc _ IH]; simpl; [done|]. by rewrite Hc. Qed.

Lemma trimStart_head (t : str) : headNotSpace t -> trimStart t = t.
Proof. destruct t as [|c t]; [done|]. intros H. simpl. by rewrite (H c t). Qed.

Lemma trimEnd_spec (s : str) :
  exists b : str,
    s = trimEnd s ++ b /\ Forall (fun c => isWhiteSpace c = true) b
    /\ lastNotSpace (trimEnd s).
Proof.
  unfold trimEnd. destruct (trimStart_spec (rev s)) as (a & Hs & Ha & Hh).
  exists (rev a). split; [|split].
  - rewrite <- rev_app_distr, <- Hs. by rewrite rev_involutive.
  - by apply Forall_rev.
  - intros t' c Ht. apply (Hh c (rev t')).
    rewrite <- (rev_involutive (trimStart (rev s))), Ht, rev_app_distr. done.
Qed.

Lemma trimEnd_ws (s b : str) :
  Forall (fun c => isWhiteSpace c = true) b -> trimEnd (s ++ b) = trimEnd s.
Proof.
  intros Hb. unfold trimEnd. rewrite rev_app_distr, trimStart_ws; [done|].
  by apply Forall_rev.
Qed.

Lemma trimEnd_last (t : str) : lastNotSpace t -> trimEnd t = t.
Proof.
  intros H. unfold trimEnd. rewrite trimStart_head; [apply rev_involutive|].
  intros c t' Ht. apply (H (rev t') c).
  rewrite <- (rev_involutive t), Ht. done.
Qed.

(** [trim] returns the one middle part that neither starts nor ends with
    white space and has only white space around it. *)
Lemma trim_unique (a g b : str) :
  Forall (fun c => isWhiteSpace c = true) a ->
  Forall (fun c => isWhiteSpace c = true) b ->
  headNotSpace g -> lastNotSpace g ->
  trim (a ++ g ++ b) = g.
Proof.
  intros Ha Hb Hh Hl. unfold trim. rewrite trimStart_ws by done.
  destruct g as [|c g].
  - simpl. rewrite <- (app_nil_r b), trimStart_ws by done. done.
  - rewrite trimStart_head.
    + rewrite trimEnd_ws by done. by apply trimEnd_last.
    + intros c' t' [= <- _]. by apply (Hh c g).
Qed.

Lemma trim_spec (s : str) :
  exists a b : str,
    s = a ++ trim s ++ b
    /\ Forall (fun c => isWhiteSpace c = true) a
    /\ Forall (fun c => isWhiteSpace c = true) b
    /\ headNotSpace (trim s) /\ lastNotSpace (trim s).
Proof.
  unfold trim. destruct (trimStart_spec s) as (a & Hs & Ha & Hh).
  destruct (trimEnd_spec (trimStart s)) as (b & Ht & Hb & Hl).
  exists a, b. split; [by rewrite <- Ht|]. split; [done|]. split; [done|].
  split; [|done]. intros c t' Hc. apply (Hh c (t' ++ b)).
  rewrite Ht at 1. by rewrite Hc.
Qed.

Lemma trim_idemp (s : str) : trim (trim s) = trim s.
Proof.
  destruct (trim_spec s) as (a & b & _ & _ & _ & Hh & Hl).
  rewrite <- (trim_unique [] (trim s) []) at 2 by done.
  by rewrite app_nil_r.
Qed.

Lemma trim_around (a s b : str) :
  Forall (fun c => isWhiteSpace c = true) a ->
  Forall (fun c => isWhiteSpace c = true) b ->
  trim (a ++ s ++ b) = trim s.
Proof.
  intros Ha Hb. destruct (trim_spec s) as (a' & b' & Hs & Ha' & Hb' & Hh & Hl).
  rewrite Hs at 1.
  replace (a ++ (a' ++ trim s ++ b') ++ b)
    with ((a ++ a') ++ trim s ++ (b' ++ b)) by (by rewrite <- !(assoc_L (++))).
  apply trim_unique; try done; by apply Forall_app.
Qed.

Lemma trim_blank (s : str) :
  trim s = [] <-> Forall (fun c => isWhiteSpace c = true) s.
Proof.
  split.
  - intros H. destruct (trim_spec s) as (a & b & Hs & Ha & Hb & _).
    rewrite H in Hs. rewrite Hs. by apply Forall_app.
  - intros H. rewrite <- (app_nil_r s). apply (trim_unique s [] []); try done.
    intros t' c Ht. by destruct t'.
Qed.

(** ** More on [parseExpression] *)

(** X1: every recursive call of [parseExpression] is on a strictly shorter
    string (the interior of the parentheses, the text before the operator,
    the text after it), so the parser returns for every input: any bound
    on the depth of the calls above the length of the string gives the
    same result. *)
Theorem parseExpression_terminates (fuel : nat) (exprStr : str) :
  (length exprStr < fuel)%nat ->
  parseExpressionFuel fuel exprStr = Some (parseExpression exprStr)
  /\ (wrapped (trim exprStr) = true ->
      (length (slice (trim exprStr) 1 (-1)) < length exprStr)%nat)
  /\ (forall i, findOperator (trim exprStr) = Some i ->
      (length (trim (substring (trim exprStr) 0 i)) < length exprStr)%nat
      /\ (length (trim (substringFrom (trim exprStr) (i + 3)))
          < length exprStr)%nat).
Proof.
  intros Hfuel. pose proof (length_trim exprStr) as Htrim.
  split; [by apply parseExpressionFuel_spec|]. split.
  - intros [Hw _]%andb_prop. apply startsWith_nonempty in Hw; [|done].
    pose proof (length_slice_inner (trim exprStr) Hw). lia.
  - intros i Hi%findOperator_lt.
    pose proof (length_trim (substring (trim exprStr) 0 i)).
    pose proof (length_substring (trim exprStr) 0 i).
    pose proof (length_trim (substringFrom (trim exprStr) (i + 3))).
    pose proof (length_substringFrom (trim exprStr) (i + 3)). lia.
Qed.

Lemma parseExpression_terminates_witness :
  (length (lit "((A AND B))") < 12)%nat
  /\ parseExpressionFuel 12 (lit "((A AND B))")
     = Some (parseExpression (lit "((A AND B))"))
  /\ parseExpressionFuel 2 (lit "((A AND B))") = None.
Proof.
  split; [vm_compute; lia|]. split; [|by vm_compute].
  apply (parseExpression_terminates 12 (lit "((A AND B))")). vm_compute; lia.
Defined.

Lemma parseExpression_trim (s : str) :
  parseExpression (trim s) = parseExpression s.
Proof.
  assert (Some (parseExpression (trim s)) = Some (parseExpression s)) as H.
  { rewrite !parseExpression_unfold. unfold parseExpressionBody.
    by rewrite trim_idemp. }
  by injection H.
Qed.

Lemma slice_parens (s : str) : slice (lit "(" ++ s ++ lit ")") 1 (-1) = s.
Proof.
  unfold slice. change (1 <? 0) with false. change (-1 <? 0) with true.
  cbv iota zeta. change (lit "(" ++ s ++ lit ")") with (chr "(" :: s ++ lit ")").
  assert (length (chr "(" :: s ++ lit ")") = S (S (length s))) as Hlen.
  { simpl. rewrite length_app. change (length (lit ")")) with 1%nat. lia. }
  rewrite Hlen.
  replace (Z.to_nat (Z.min 1 (Z.of_nat (S (S (length s)))))) with 1%nat by lia.
  match goal with |- take ?n _ = _ => replace n with (length s) by lia end.
  change (drop 1 (chr "(" :: s ++ lit ")")) with (s ++ lit ")").
  apply take_app_length.
Qed.

Lemma trim_id (g : str) : headNotSpace g -> lastNotSpace g -> trim g = g.
Proof.
  intros Hh Hl. rewrite <- (app_nil_r g) at 1. by apply (trim_unique [] g []).
Qed.

Lemma trim_parens (s : str) :
  trim (lit "(" ++ s ++ lit ")") = lit "(" ++ s ++ lit ")".
Proof.
  apply trim_id.
  - intros c t'. change (lit "(" ++ s ++ lit ")") with (chr "(" :: s ++ lit ")").
    by intros [= <- _].
  - intros t' c. change (lit ")") with [chr ")"]. rewrite (assoc_L (++)).
    by intros [_ <-]%app_inj_tail.
Qed.

Lemma wrapped_parens (s : str) : wrapped (lit "(" ++ s ++ lit ")") = true.
Proof.
  unfold wrapped, startsWith, endsWith. apply andb_true_intro. split.
  - apply prefixb_true. by exists (s ++ lit ")").
  - apply prefixb_true. exists (rev (lit "(" ++ s)).
    by rewrite (assoc_L (++)), rev_app_distr.
Qed.

(** X2: white space around a condition text is ignored, and so is one
    pair of parentheses put around any text: the parser gives for
    [( text )] exactly what it gives for [text]. *)
Theorem parseExpression_ignores_outer_space_and_parens (s : str) :
  parseExpression (trim s) = parseExpression s
  /\ (forall a b : str,
        Forall (fun c => isWhiteSpace c = true) a ->
        Forall (fun c => isWhiteSpace c = true) b ->
        parseExpression (a ++ s ++ b) = parseExpression s)
  /\ parseExpression (lit "(" ++ s ++ lit ")") = parseExpression s
  /\ (forall a b : str,
        Forall (fun c => isWhiteSpace c = true) a ->
        Forall (fun c => isWhiteSpace c = true) b ->
        parseExpression (a ++ (lit "(" ++ s ++ lit ")") ++ b) = parseExpression s).
Proof.
  assert (forall t a b : str,
            Forall (fun c => isWhiteSpace c = true) a ->
            Forall (fun c => isWhiteSpace c = true) b ->
            parseExpression (a ++ t ++ b) = parseExpression t) as Hspace.
  { intros t a b Ha Hb.
    rewrite <- (parseExpression_trim (a ++ t ++ b)), trim_around by done.
    apply parseExpression_trim. }
  assert (parseExpression (lit "(" ++ s ++ lit ")") = parseExpression s) as Hpar.
  { rewrite parseExpression_wrapped; rewrite trim_parens.
    - by rewrite slice_parens.
    - apply wrapped_parens. }
  split; [apply parseExpression_trim|]. split; [apply Hspace|].
  split; [done|]. intros a b Ha Hb. by rewrite Hspace.
Qed.

(** X3: a condition text that is empty or all white space is rejected, and
    the error names the empty condition. *)
Theorem parseExpression_blank (s : str) :
  Forall (fun c => isWhiteSpace c = true) s ->
  parseExpression s = Throw (InvalidCondition []).
Proof.
  intros Hs%trim_blank. rewrite parseExpression_leaf; rewrite Hs; by vm_compute.
Qed.

Lemma parseExpression_blank_witness :
  Forall (fun c => isWhiteSpace c = true) (lit "   ")
  /\ parseExpression (lit "   ") = Throw (InvalidCondition []).
Proof.
  assert (Forall (fun c => isWhiteSpace c = true) (lit "   ")) as H.
  { change (lit "   ") with [chr " "; chr " "; chr " "]. by repeat constructor. }
  split; [exact H|]. exact (parseExpression_blank (lit "   ") H).
Defined.

(** X4: every condition at a leaf of a parsed tree has a variable that is
    not empty and neither starts nor ends with white space. *)
Theorem parsed_leaves_trimmed (s : str) (e : Expression) (c : Condition) :
  parseExpression s = Ok e -> c ∈ leaves e ->
  variable c <> [] /\ trim (variable c) = variable c
  /\ headNotSpace (variable c) /\ lastNotSpace (variable c).
Proof.
  revert e c.
  apply (parseExpression_induction (fun _ r => forall e c, r = Ok e ->
    c ∈ leaves e ->
    variable c <> [] /\ trim (variable c) = variable c
    /\ headNotSpace (variable c) /\ lastNotSpace (variable c))).
  - intros s' _ IH. exact IH.
  - intros s' i _ _ _ e c [=].
  - intros s' i _ _ _ IHl IHr e c
      (l & Hl & (r & Hr & [= <-])%bind_Ok)%bind_Ok Hc.
    simpl in Hc. apply elem_of_app in Hc as [Hc|Hc]; eauto.
  - intros s' _ _ e c (c' & Hc' & [= <-])%bind_Ok Hc.
    simpl in Hc. apply list_elem_of_singleton in Hc as ->.
    apply parseCondition_Ok in Hc' as (_ & Hv & Hne).
    split; [done|]. rewrite Hv.
    destruct (trim_spec (removeFirstIgnoreCase (lit "NOT") (trim s')))
      as (a & b & _ & _ & _ & Hh & Hl).
    split; [apply trim_idemp|]. done.
Qed.

Lemma parsed_leaves_trimmed_witness :
  parseExpression (lit " ( NOT fan_noise ) OR no_boot ") =
    Ok (ExprLogical (lit "OR")
          (ExprCondition {| variable := lit "fan_noise"; negated := true |})
          (ExprCondition {| variable := lit "no_boot"; negated := false |}))
  /\ variable {| variable := lit "fan_noise"; negated := true |} <> []
  /\ trim (variable {| variable := lit "fan_noise"; negated := true |})
     = variable {| variable := lit "fan_noise"; negated := true |}
  /\ headNotSpace (variable {| variable := lit "fan_noise"; negated := true |})
  /\ lastNotSpace (variable {| variable := lit "fan_noise"; negated := true |}).
Proof.
  split; [vm_compute; reflexivity|].
  apply (parsed_leaves_trimmed (lit " ( NOT fan_noise ) OR no_boot ")
           (ExprLogical (lit "OR")
              (ExprCondition {| variable := lit "fan_noise"; negated := true |})
              (ExprCondition {| variable := lit "no_boot"; negated := false |}))).
  - vm_compute; reflexivity.
  - simpl. apply list_elem_of_here.
Defined.

Lemma bind_Throw {A B} (m : throws A) (k : A -> throws B) (err : SyntaxError) :
  bind m k = Throw err ->
  m = Throw err \/ exists a, m = Ok a /\ k a = Throw err.
Proof. destruct m as [a|e]; simpl; [eauto|]. intros [= ->]. by left. Qed.

(** X5: [parseExpression] fails in two ways only. It reports an invalid
    condition for a trimmed text in which no operator starts at depth 0
    and of which nothing but white space is left once the first [NOT] is
    removed; it reports an invalid logical expression for a trimmed text
    whose first operator has only white space before it or after it. The
    text reported is the part of the input where the failure occurred. *)
Theorem parseExpression_errors (s : str) (err : SyntaxError) :
  parseExpression s = Throw err ->
  (exists t : str,
     err = InvalidCondition t /\ trim t = t
     /\ findOperator t = None
     /\ trim (removeFirstIgnoreCase (lit "NOT") t) = [])
  \/ (exists (t : str) (i : nat),
        err = InvalidLogicalExpression t /\ trim t = t
        /\ findOperator t = Some i
        /\ (trim (substring t 0 i) = []
            \/ trim (substringFrom t (i + 3)) = [])).
Proof.
  revert err.
  apply (parseExpression_induction (fun _ r => forall err, r = Throw err ->
    (exists t : str,
       err = InvalidCondition t /\ trim t = t
       /\ findOperator t = None
       /\ trim (removeFirstIgnoreCase (lit "NOT") t) = [])
    \/ (exists (t : str) (i : nat),
          err = InvalidLogicalExpression t /\ trim t = t
          /\ findOperator t = Some i
          /\ (trim (substring t 0 i) = []
              \/ trim (substringFrom t (i + 3)) = [])))).
  - intros s' _ IH. exact IH.
  - intros s' i _ Hi He err [= <-]. right. exists (trim s'), i.
    split; [done|]. split; [apply trim_idemp|]. split; [done|].
    apply orb_prop in He as [He|He]; [left|right].
    + by destruct (trim (substring (trim s') 0 i)).
    + by destruct (trim (substringFrom (trim s') (i + 3))).
  - intros s' i _ _ _ IHl IHr err
      [Hl|(l & Hl & [Hr|(r & Hr & [=])]%bind_Throw)]%bind_Throw; eauto.
  - intros s' _ Hnone err [Hc|(c & _ & [=])]%bind_Throw. left.
    exists (trim s'). unfold parseCondition in Hc.
    destruct (trim (removeFirstIgnoreCase (lit "NOT") (trim s'))) eqn:Hv;
      simpl in Hc; [|done].
    injection Hc as <-. split; [done|]. split; [apply trim_idemp|]. done.
Qed.

Lemma parseExpression_errors_witness :
  parseExpression (lit "a AND (OR b)") =
    Throw (InvalidLogicalExpression (lit "OR b"))
  /\ ((exists t : str,
         InvalidLogicalExpression (lit "OR b") = InvalidCondition t
         /\ trim t = t /\ findOperator t = None
         /\ trim (removeFirstIgnoreCase (lit "NOT") t) = [])
      \/ (exists (t : str) (i : nat),
            InvalidLogicalExpression (lit "OR b")
              = InvalidLogicalExpression t
            /\ trim t = t /\ findOperator t = Some i
            /\ (trim (substring t 0 i) = []
                \/ trim (substringFrom t (i + 3)) = []))).
Proof.
  split; [vm_compute; reflexivity|].
  apply (parseExpression_errors (lit "a AND (OR b)")).
  vm_compute; reflexivity.
Defined.

Lemma parsed_operators_shape_witness :
  parseExpression (lit "A OR(B)") =
    Ok (ExprLogical (lit "OR(")
          (ExprCondition {| variable := lit "A"; negated := false |})
          (ExprCondition {| variable := lit "B)"; negated := false |}))
  /\ (lit "OR(" = lit "AND" \/ lit "OR(" = lit "OR"
      \/ exists c : char, isWhiteSpace c = false /\ lit "OR(" = lit "OR" ++ [c]).
Proof.
  split; [vm_compute; reflexivity|].
  apply (parsed_operators_shape (lit "A OR(B)")
           (ExprLogical (lit "OR(")
              (ExprCondition {| variable := lit "A"; negated := false |})
              (ExprCondition {| variable := lit "B)"; negated := false |}))).
  - vm_compute; reflexivity.
  - simpl. apply list_elem_of_here.
Defined.

(** ** More on the evaluator and the rule loop *)

(** X7: the value of an expression depends only on the answers to the
    variables at its leaves. *)
Theorem evaluateExpression_depends_on_leaves
    (e : Expression) (answers1 answers2 : gmap str str) :
  (forall c, c ∈ leaves e -> answers1 !! variable c = answers2 !! variable c) ->
  evaluateExpression e answers1 = evaluateExpression e answers2.
Proof.
  induction e as [c|op l IHl r IHr]; simpl; intros H.
  - rewrite (H c) by apply list_elem_of_here. done.
  - rewrite IHl, IHr; [done| |]; intros c Hc; apply H, elem_of_app; auto.
Qed.

Lemma evaluateExpression_depends_on_leaves_witness :
  evaluateExpression
    (ExprLogical (lit "AND")
       (ExprCondition {| variable := lit "a"; negated := false |})
       (ExprCondition {| variable := lit "b"; negated := true |}))
    (collectAnswers [(lit "a", lit "yes"); (lit "b", lit "no")])
  = evaluateExpression
    (ExprLogical (lit "AND")
       (ExprCondition {| variable := lit "a"; negated := false |})
       (ExprCondition {| variable := lit "b"; negated := true |}))
    (collectAnswers
       [(lit "z", lit "yes"); (lit "a", lit "yes"); (lit "b", lit "no")]).
Proof.
  apply evaluateExpression_depends_on_leaves.
  intros c Hc. simpl in Hc.
  apply elem_of_cons in Hc as [->|Hc]; [vm_compute; reflexivity|].
  apply list_elem_of_singleton in Hc as ->. vm_compute; reflexivity.
Defined.

Lemma collectAnswers_snoc (formData : list (str * str)) (key value : str) :
  collectAnswers (formData ++ [(key, value)]) =
  if str_eqb key (lit "__proto__") then collectAnswers formData
  else <[key := value]> (collectAnswers formData).
Proof. unfold collectAnswers. by rewrite fold_left_app. Qed.

(** X8: after the form's entries are collected, the answer read for a key
    is the value of the last entry with that key, and nothing when there
    is no such entry; the key [__proto__] never holds an answer. *)
Theorem collectAnswers_lookup (formData : list (str * str)) (key : str) :
  collectAnswers formData !! key =
  if str_eqb key (lit "__proto__") then None
  else last (map snd (List.filter (fun entry => str_eqb entry.1 key) formData)).
Proof.
  induction formData as [|[key' value] formData IH] using rev_ind.
  - change (collectAnswers []) with (∅ : gmap str str).
    rewrite lookup_empty. simpl. by destruct (str_eqb _ _).
  - rewrite collectAnswers_snoc, List.filter_app, map_app, last_app. simpl.
    unfold str_eqb in *.
    destruct (decide (key' = key)) as [->|Hne].
    + rewrite (bool_decide_eq_true_2 (key = key)) by done. simpl.
      destruct (bool_decide (key = lit "__proto__")) eqn:Hp; [done|].
      by rewrite lookup_insert_eq.
    + rewrite (bool_decide_eq_false_2 (key' = key)) by done. simpl.
      destruct (bool_decide (key' = lit "__proto__")); [done|].
      by rewrite lookup_insert_ne.
Qed.

(** X9: the text selected by the rule loop is never made up: it is empty,
    or it is the text of a declared result that a rule whose expression
    evaluates to true names; and when several results are declared under
    that name, it is the text of the first of them. *)
Theorem selectResult_is_first_declared_result
    (rules : list Rule) (allResults : list Variable_) (answers : gmap str str) :
  selectResult rules allResults answers = []
  \/ exists (rule : Rule) (before : list Variable_) (resultVar : Variable_)
            (after : list Variable_),
       rule ∈ rules
       /\ evaluateExpression (expression rule) answers = true
       /\ allResults = before ++ resultVar :: after
       /\ name resultVar = result rule
       /\ (forall r, r ∈ before -> name r <> result rule)
       /\ selectResult rules allResults answers = value resultVar.
Proof.
  induction rules as [|rule rules IH] using rev_ind; [by left|].
  rewrite selectResult_app. simpl. unfold applyRule.
  destruct (evaluateExpression (expression rule) answers) eqn:He.
  - destruct (findResult allResults rule) as [resultVar|] eqn:Hf.
    + right. apply find_Some_first in Hf as (before & after & -> & Hn & Hb).
      exists rule, before, resultVar, after.
      split; [apply elem_of_app; right; apply list_elem_of_here|].
      split; [done|]. split; [done|].
      split; [by apply bool_decide_eq_true in Hn|]. split; [|done].
      intros r Hr. specialize (Hb r Hr). by apply bool_decide_eq_false in Hb.
    + destruct IH as [IH|(r0 & b0 & rv & a0 & Hin & IH)]; [by left|right].
      exists r0, b0, rv, a0. split; [apply elem_of_app; by left|done].
  - destruct IH as [IH|(r0 & b0 & rv & a0 & Hin & IH)]; [by left|right].
    exists r0, b0, rv, a0. split; [apply elem_of_app; by left|done].
Qed.

(** ** Lines of a block *)

Lemma mapThrows_Ok_inv {A B} (f : nat -> A -> throws B) (i : nat) (l : list A)
    (ys : list B) :
  mapThrows f i l = Ok ys ->
  length ys = length l
  /\ forall k x, l !! k = Some x ->
       exists y, ys !! k = Some y /\ f (i + k)%nat x = Ok y.
Proof.
  revert i ys. induction l as [|x l IH]; intros i ys; simpl.
  - intros [= <-]. split; [done|]. intros k x Hk. by destruct k.
  - intros (y & Hy & (ys' & Hys & [= <-])%bind_Ok)%bind_Ok.
    destruct (IH _ _ Hys) as [Hlen Hall]. split; [simpl; by rewrite Hlen|].
    intros [|k] x' Hk; simpl in *.
    + injection Hk as <-. exists y. by rewrite Nat.add_0_r.
    + destruct (Hall k x' Hk) as (y' & Hy' & Hf). exists y'. split; [done|].
      by replace (i + S k)%nat with (S i + k)%nat by lia.
Qed.

Lemma mapThrows_Throw_inv {A B} (f : nat -> A -> throws B) (i : nat)
    (l : list A) (e : SyntaxError) :
  mapThrows f i l = Throw e ->
  exists good bad rest,
    l = good ++ bad :: rest
    /\ (forall k x, good !! k = Some x -> exists y, f (i + k)%nat x = Ok y)
    /\ f (i + length good)%nat bad = Throw e.
Proof.
  revert i. induction l as [|x l IH]; intros i; simpl; [done|].
  intros [Hx|(y & Hy & [Hl|(ys & _ & [=])]%bind_Throw)]%bind_Throw.
  - exists [], x, l. split; [done|]. split; [by intros k x' Hk|].
    by rewrite Nat.add_0_r.
  - destruct (IH _ Hl) as (good & bad & rest & -> & Hgood & Hbad).
    exists (x :: good), bad, rest. split; [done|]. split.
    + intros [|k] x' Hk; simpl in *.
      * injection Hk as <-. exists y. by rewrite Nat.add_0_r.
      * destruct (Hgood k x' Hk) as [y' Hy']. exists y'.
        by replace (i + S k)%nat with (S i + k)%nat by lia.
    + simpl. by replace (i + S (length good))%nat
        with (S i + length good)%nat by lia.
Qed.

Lemma split_pieces (s : str) (sep : char) (piece : str) :
  piece ∈ split s sep ->
  (sep ∉ piece) /\ forall c, c ∈ piece -> c ∈ s.
Proof.
  revert piece. induction s as [|c s IH]; intros piece; simpl.
  - intros ->%list_elem_of_singleton. split; [apply not_elem_of_nil|done].
  - destruct (N.eqb_spec c sep) as [->|Hne].
    + intros [->|Hp]%elem_of_cons.
      * split; [apply not_elem_of_nil|]. intros c Hc. by apply elem_of_nil in Hc.
      * destruct (IH piece Hp) as [Hsep Hin]. split; [done|].
        intros c Hc. apply elem_of_cons. right. auto.
    + destruct (split s sep) as [|p ps] eqn:Hs; [by apply split_nonempty in Hs|].
      intros [->|Hp]%elem_of_cons.
      * destruct (IH p) as [Hsep Hin]; [apply list_elem_of_here|]. split.
        -- intros [?|?]%elem_of_cons; [congruence|done].
        -- intros c' [->|Hc']%elem_of_cons;
             [apply list_elem_of_here|apply elem_of_cons; right; auto].
      * destruct (IH piece) as [Hsep Hin]; [by apply list_elem_of_further|].
        split; [done|]. intros c' Hc'. apply elem_of_cons. right. auto.
Qed.

(** The lines handed to the callbacks hold no line feed and are not
    blank. *)
Lemma nonBlankLines_elem (block line : str) :
  line ∈ nonBlankLines block ->
  (10%N ∉ line) /\ trim line <> [] /\ forall c, c ∈ line -> c ∈ block.
Proof.
  unfold nonBlankLines. rewrite list_elem_of_In, filter_In, <- list_elem_of_In.
  intros [[Hsep Hin]%split_pieces Hne]. split; [done|]. split; [|done].
  by destruct (trim line).
Qed.

Lemma trim_elem (s : str) (c : char) : c ∈ trim s -> c ∈ s.
Proof.
  destruct (trim_spec s) as (a & b & Hs & _). intros Hc. rewrite Hs.
  apply elem_of_app. right. apply elem_of_app. by left.
Qed.

Lemma filter_nil {A} (p : A -> bool) (l : list A) :
  (forall x, x ∈ l -> p x = false) -> List.filter p l = [].
Proof.
  induction l as [|x l IH]; intros H; simpl; [done|].
  rewrite (H x) by apply list_elem_of_here. apply IH.
  intros y Hy. apply H. by apply list_elem_of_further.
Qed.

(** X10: a block that is empty or all white space (line feeds included)
    has no lines: it declares nothing and no rules, without error. *)
Theorem blank_block_is_empty (block blockName : str) :
  Forall (fun c => isWhiteSpace c = true) block ->
  nonBlankLines block = []
  /\ parseVariables block blockName = Ok []
  /\ parseRules block = Ok [].
Proof.
  intros Hblank.
  assert (nonBlankLines block = []) as Hnil.
  { apply filter_nil. intros line [_ Hin]%split_pieces.
    assert (trim line = []) as ->; [|done]. apply trim_blank.
    apply Forall_forall. intros c Hc. rewrite Forall_forall in Hblank. auto. }
  unfold parseVariables, parseRules. by rewrite Hnil.
Qed.

Lemma blank_block_is_empty_witness :
  Forall (fun c => isWhiteSpace c = true) (lit "
   ")
  /\ nonBlankLines (lit "
   ") = []
  /\ parseVariables (lit "
   ") (lit "stmt") = Ok []
  /\ parseRules (lit "
   ") = Ok [].
Proof.
  assert (Forall (fun c => isWhiteSpace c = true) (lit "
   ")) as H.
  { change (lit "
   ") with [10%N; chr " "; chr " "; chr " "]. by repeat constructor. }
  split; [exact H|]. exact (blank_block_is_empty _ (lit "stmt") H).
Defined.

(** X11: when a block of declarations is parsed, there is one variable per
    non-blank line, in the order of the lines; the name is the trimmed
    text before the only [=] of its line and the value the trimmed text
    after it, so neither holds a [=] or a line feed nor starts or ends
    with white space. Either may be empty. *)
Theorem parseVariables_Ok (block blockName : str) (vars : list Variable_) :
  parseVariables block blockName = Ok vars ->
  length vars = length (nonBlankLines block)
  /\ forall (k : nat) (line : str),
       nonBlankLines block !! k = Some line ->
       exists (v : Variable_) (before after : str),
         vars !! k = Some v
         /\ line = before ++ chr "=" :: after
         /\ name v = trim before /\ value v = trim after
         /\ (chr "=" ∉ name v) /\ (chr "=" ∉ value v)
         /\ (10%N ∉ name v) /\ (10%N ∉ value v)
         /\ trim (name v) = name v /\ trim (value v) = value v.
Proof.
  unfold parseVariables. intros [Hlen Hall]%mapThrows_Ok_inv.
  split; [done|]. intros k line Hk.
  destruct (Hall k line Hk) as (v & Hv & Hpv).
  destruct (decide (count_occ N.eq_dec line (chr "=") = 1%nat)) as [H1|Hn1].
  - destruct (parseVariable_one blockName (0 + k) line H1)
      as (before & after & Hline & Hb & Ha & Hp).
    rewrite Hp in Hpv. injection Hpv as <-.
    destruct (nonBlankLines_elem block line) as (Hnl & _).
    { apply list_elem_of_lookup. eauto. }
    exists {| name := trim before; value := trim after |}, before, after.
    simpl. split; [done|]. split; [done|]. split; [done|]. split; [done|].
    split; [by intros ?%trim_elem|]. split; [by intros ?%trim_elem|].
    split.
    { intros ?%trim_elem. apply Hnl. rewrite Hline. apply elem_of_app. by left. }
    split.
    { intros ?%trim_elem. apply Hnl. rewrite Hline.
      apply elem_of_app. right. by apply list_elem_of_further. }
    split; apply trim_idemp.
  - by rewrite (parseVariable_not_one blockName (0 + k) line Hn1) in Hpv.
Qed.

Lemma parseVariables_Ok_witness :
  parseVariables (lit "a = Q1
    = ") (lit "stmt") =
    Ok [ {| name := lit "a"; value := lit "Q1" |};
         {| name := []; value := [] |} ]
  /\ length [ {| name := lit "a"; value := lit "Q1" |};
              {| name := []; value := [] |} ]
     = length (nonBlankLines (lit "a = Q1
    = ")).
Proof.
  split; [vm_compute; reflexivity|].
  apply (parseVariables_Ok (lit "a = Q1
    = ") (lit "stmt")).
  vm_compute; reflexivity.
Defined.

Lemma parseExpression_error_kind (s : str) (err : SyntaxError) :
  parseExpression s = Throw err ->
  (exists t, err = InvalidCondition t)
  \/ (exists t, err = InvalidLogicalExpression t).
Proof.
  revert err.
  apply (parseExpression_induction (fun _ r => forall err, r = Throw err ->
    (exists t, err = InvalidCondition t)
    \/ (exists t, err = InvalidLogicalExpression t))).
  - intros s' _ IH. exact IH.
  - intros s' i _ _ _ err [= <-]. eauto.
  - intros s' i _ _ _ IHl IHr err
      [Hl|(l & Hl & [Hr|(r & Hr & [=])]%bind_Throw)]%bind_Throw; eauto.
  - intros s' _ _ err [Hc|(c & _ & [=])]%bind_Throw.
    unfold parseCondition in Hc. destruct (isEmpty _); [|done].
    injection Hc as <-. eauto.
Qed.

(** X12: when a block of rules is parsed, there is one rule per non-blank
    line, in the order of the lines. When it is not, the error is that of
    the first line that fails and carries that line and its number, counted
    from 1 among the non-blank lines: an invalid rule when the line does
    not match the pattern, otherwise the error of the condition, which is
    an invalid condition or an invalid logical expression, wrapped once. *)
Theorem parseRules_lines (block : str) :
  (forall rules : list Rule,
     parseRules block = Ok rules ->
     length rules = length (nonBlankLines block)
     /\ forall (k : nat) (line : str),
          nonBlankLines block !! k = Some line ->
          exists rule, rules !! k = Some rule /\ parseRule k line = Ok rule)
  /\ (forall err : SyntaxError,
        parseRules block = Throw err ->
        exists (good : list str) (bad : str) (rest : list str),
          nonBlankLines block = good ++ bad :: rest
          /\ (forall (k : nat) (line : str),
                good !! k = Some line -> exists rule, parseRule k line = Ok rule)
          /\ ((exec ruleRegex bad = None
               /\ err = InvalidRule (length good + 1) bad)
              \/ (exists (groups : list str) (inner : SyntaxError),
                    exec ruleRegex bad = Some groups
                    /\ parseExpression (nth 0 groups []) = Throw inner
                    /\ err = ErrorInRule (length good + 1) bad inner
                    /\ ((exists t, inner = InvalidCondition t)
                        \/ (exists t, inner = InvalidLogicalExpression t))))).
Proof.
  unfold parseRules. split.
  - intros rules [Hlen Hall]%mapThrows_Ok_inv. split; [done|]. exact Hall.
  - intros err (good & bad & rest & Hl & Hgood & Hbad)%mapThrows_Throw_inv.
    exists good, bad, rest. split; [done|]. split; [exact Hgood|].
    simpl in Hbad. unfold parseRule in Hbad.
    destruct (exec ruleRegex bad) as [groups|]; [right|left].
    + destruct (parseExpression (nth 0 groups [])) as [e|inner] eqn:He; [done|].
      injection Hbad as <-. exists groups, inner.
      split; [done|]. split; [done|]. split; [done|].
      by apply (parseExpression_error_kind (nth 0 groups [])).
    + by injection Hbad as <-.
Qed.

(** ** The three blocks *)

Example parseInput_readme :
  parseInput readmeInput =
  Returns
    {| statements :=
         [ {| name := lit "fan_noise";
              value := lit "Is your computer making loud fan noises?" |};
           {| name := lit "no_boot";
              value := lit "Does your computer fail to start up?" |};
           {| name := lit "graphics_issues";
              value := lit "Are you seeing graphical glitches?" |} ];
       results :=
         [ {| name := lit "overheating";
              value := lit "Your system may be overheating" |};
           {| name := lit "psu_fault";
              value := lit "Power supply unit may be faulty" |};
           {| name := lit "gpu_issue";
              value := lit "Graphics card needs attention" |} ];
       rules :=
         [ {| expression :=
                ExprLogical (lit "AND")
                  (ExprCondition {| variable := lit "fan_noise"; negated := false |})
                  (ExprCondition {| variable := lit "no_boot"; negated := false |});
              result := lit "overheating" |};
           {| expression :=
                ExprCondition {| variable := lit "no_boot"; negated := false |};
              result := lit "psu_fault" |};
           {| expression :=
                ExprLogical (lit "AND")
                  (ExprCondition
                     {| variable := lit "graphics_issues"; negated := false |})
                  (ExprLogical (lit "OR")
                     (ExprCondition
                        {| variable := lit "fan_noise"; negated := false |})
                     (ExprCondition
                        {| variable := lit "no_boot"; negated := false |}));
              result := lit "gpu_issue" |} ] |}.
Proof. vm_compute. reflexivity. Qed.

Lemma forward_Some {R} (try : nat -> option R) (k n : nat) (r : R) :
  forward try k n = Some r ->
  exists j, (k <= j <= k + n)%nat /\ try j = Some r
            /\ forall j', (k <= j' < j)%nat -> try j' = None.
Proof.
  revert k. induction n as [|n IH]; intros k; simpl.
  - destruct (try k) eqn:Ht; [|done]. intros [= ->].
    exists k. split; [lia|]. split; [done|]. intros j' Hj'. lia.
  - destruct (try k) eqn:Ht.
    + intros [= ->]. exists k. split; [lia|]. split; [done|]. intros j' Hj'. lia.
    + intros (j & Hj & Hr & Hbefore)%IH. exists j.
      split; [lia|]. split; [done|]. intros j' Hj'.
      destruct (decide (j' = k)) as [->|]; [done|]. apply Hbefore. lia.
Qed.

Lemma forward_is_Some {R} (try : nat -> option R) (k n j : nat) :
  (k <= j <= k + n)%nat -> is_Some (try j) -> is_Some (forward try k n).
Proof.
  revert k. induction n as [|n IH]; intros k Hj Hs; simpl.
  - assert (j = k) as -> by lia. by destruct Hs as [r ->].
  - destruct (try k) eqn:Ht; [done|].
    destruct (decide (j = k)) as [->|].
    + rewrite Ht in Hs. by destruct Hs.
    + apply IH; [lia|done].
Qed.

Lemma matchClose_Some (close s3 group g : str) :
  matchClose close s3 group = Some g ->
  g = group
  /\ exists ws2 post, s3 = ws2 ++ close ++ post
       /\ Forall (fun c => isWhiteSpace c = true) ws2.
Proof.
  unfold matchClose. intros (k3 & Hk3 & Ht & _)%backoff_Some.
  destruct (prefixb close (drop k3 s3)) eqn:Hp; [|done].
  injection Ht as <-. split; [done|].
  apply prefixb_true in Hp as [post Hpost].
  destruct (runLength_take isWhiteSpace s3 k3) as [Hws _]; [lia|].
  exists (take k3 s3), post. split; [|done].
  by rewrite <- Hpost, take_drop.
Qed.

Lemma matchClose_is_Some (close ws2 post group : str) :
  Forall (fun c => isWhiteSpace c = true) ws2 ->
  is_Some (matchClose close (ws2 ++ close ++ post) group).
Proof.
  intros Hws. unfold matchClose. apply (backoff_is_Some _ _ _ (length ws2)).
  - split; [lia|]. by apply runLength_prefix.
  - rewrite drop_app_length.
    by rewrite (proj2 (prefixb_true close (close ++ post))) by eauto.
Qed.

Lemma matchLazy_is_Some (close mid post : str) :
  is_Some (matchLazy close (mid ++ close ++ post)).
Proof.
  unfold matchLazy. apply (forward_is_Some _ _ _ (length mid)).
  - rewrite length_app. lia.
  - rewrite drop_app_length. by apply (matchClose_is_Some close [] post).
Qed.

Lemma matchBlockHere_is_Some (open close mid post : str) :
  is_Some (matchBlockHere open close (open ++ mid ++ close ++ post)).
Proof.
  unfold matchBlockHere.
  rewrite (proj2 (prefixb_true open (open ++ mid ++ close ++ post))) by eauto.
  rewrite drop_app_length. cbv zeta.
  apply (backoff_is_Some _ _ _ 0); [lia|]. apply matchLazy_is_Some.
Qed.

Lemma execBlock_Some (open close s g : str) :
  execBlock open close s = Some g ->
  exists pre s0,
    s = pre ++ s0 /\ matchBlockHere open close s0 = Some g
    /\ forall pre' s', s = pre' ++ s' -> (length pre' < length pre)%nat ->
         matchBlockHere open close s' = None.
Proof.
  induction s as [|c s IH]; simpl.
  - destruct (matchBlockHere open close []) eqn:Hm; [|done]. intros [= ->].
    exists [], []. split; [done|]. split; [done|]. intros pre' s' _ Hlt.
    simpl in Hlt. lia.
  - destruct (matchBlockHere open close (c :: s)) eqn:Hm.
    + intros [= ->]. exists [], (c :: s). split; [done|]. split; [done|].
      intros pre' s' _ Hlt. simpl in Hlt. lia.
    + intros (pre & s0 & -> & Hs0 & Hmin)%IH. exists (c :: pre), s0.
      split; [done|]. split; [done|]. intros pre' s' Heq Hlt.
      destruct pre' as [|c' pre']; simpl in *.
      * by rewrite <- Heq.
      * injection Heq as <- Heq. apply (Hmin pre' s' Heq). lia.
Qed.

Lemma execBlock_is_Some (open close pre s0 : str) :
  is_Some (matchBlockHere open close s0) ->
  is_Some (execBlock open close (pre ++ s0)).
Proof.
  intros H. induction pre as [|c pre IH]; simpl.
  - destruct s0 as [|c s0]; simpl; destruct H as [g ->]; done.
  - by destruct (matchBlockHere open close (c :: pre ++ s0)).
Qed.

Lemma matchBlockHere_content (open close s0 group : str) :
  matchBlockHere open close s0 = Some group ->
  exists ws1 ws2 post : str,
    s0 = open ++ (ws1 ++ group ++ ws2) ++ close ++ post
    /\ Forall (fun c => isWhiteSpace c = true) ws1
    /\ Forall (fun c => isWhiteSpace c = true) ws2
    /\ headNotSpace group /\ lastNotSpace group
    /\ ((exists c close', close = c :: close' /\ isWhiteSpace c = false) ->
        forall x y : str,
          (ws1 ++ group ++ ws2) ++ close ++ post = x ++ close ++ y ->
          (length (ws1 ++ group ++ ws2) <= length x)%nat).
Proof.
  unfold matchBlockHere. destruct (prefixb open s0) eqn:Hopen; [|done].
  apply prefixb_true in Hopen as [s1 ->]. rewrite drop_app_length. cbv zeta.
  intros (k1 & Hk1 & Ht1 & Hlater1)%backoff_Some.
  unfold matchLazy in Ht1.
  apply forward_Some in Ht1 as (k2 & Hk2 & Ht2 & Hbefore2).
  apply matchClose_Some in Ht2 as (Hgroup & ws2 & post & Hs3 & Hws2).
  destruct (runLength_take isWhiteSpace s1 k1) as [Hws1 Hlen1]; [lia|].
  assert (length (take k1 s1) = k1) as Hlws1 by (rewrite length_take; lia).
  assert (s1 = take k1 s1 ++ drop k1 s1) as Hs1 by (by rewrite take_drop).
  remember (take k1 s1) as ws1 eqn:Hws1eq.
  remember (drop k1 s1) as s2 eqn:Hs2eq.
  assert (s2 = group ++ ws2 ++ close ++ post) as Hs2.
  { by rewrite Hgroup, <- Hs3, take_drop. }
  assert (length group = k2) as Hlg.
  { rewrite Hgroup, length_take. simpl in Hk2. lia. }
  exists ws1, ws2, post.
  split; [by rewrite Hs1, Hs2, <- !(assoc_L (++))|].
  split; [done|]. split; [done|]. split; [|split].
  - intros c t Hg. destruct (isWhiteSpace c) eqn:Hc; [exfalso|done].
    assert (s1 = (ws1 ++ [c]) ++ (t ++ ws2) ++ close ++ post) as Hs1'.
    { rewrite Hs1, Hs2, Hg. by rewrite <- !(assoc_L (++)). }
    assert (is_Some (matchLazy close (drop (S k1) s1))) as [g' Hg'].
    { rewrite Hs1' at 1.
      replace (S k1) with (length (ws1 ++ [c]))
        by (rewrite length_app, Hlws1; simpl; lia).
      rewrite drop_app_length. apply matchLazy_is_Some. }
    rewrite Hlater1 in Hg'; [done|]. split; [lia|].
    rewrite Hs1' at 1.
    replace (S k1) with (length (ws1 ++ [c]))
      by (rewrite length_app, Hlws1; simpl; lia).
    apply runLength_prefix, Forall_app. split; [done|by repeat constructor].
  - intros t c Hg. destruct (isWhiteSpace c) eqn:Hc; [exfalso|done].
    assert (drop (length t) s2 = (c :: ws2) ++ close ++ post) as Hd.
    { rewrite Hs2, Hg, <- (assoc_L (++)). by rewrite drop_app_length. }
    destruct (matchClose_is_Some close (c :: ws2) post (take (length t) s2))
      as [g' Hg']; [by constructor|].
    rewrite <- Hd, Hbefore2 in Hg'; [done|].
    rewrite <- Hlg, Hg, length_app. simpl. lia.
  - intros (c0 & close' & -> & Hc0) x y Heq.
    destruct (decide (length (ws1 ++ group ++ ws2) <= length x)%nat)
      as [|Hlt]; [done|exfalso].
    assert (((ws1 ++ group ++ ws2) ++ (c0 :: close') ++ post) !! length x
            = Some c0) as Hx.
    { rewrite Heq. apply list_lookup_middle. done. }
    rewrite lookup_app_l in Hx by lia.
    destruct (decide (length x < k1)%nat) as [Hx1|Hx1].
    { rewrite lookup_app_l in Hx by lia.
      rewrite Forall_lookup in Hws1. rewrite (Hws1 _ _ Hx) in Hc0. done. }
    rewrite lookup_app_r in Hx by lia.
    destruct (decide (length x - length ws1 < k2)%nat) as [Hx2|Hx2].
    { assert (drop (length x - length ws1) s2 = (c0 :: close') ++ y) as Hd.
      { rewrite Hs2eq, drop_drop.
        replace (k1 + (length x - length ws1))%nat with (length x) by lia.
        rewrite Hs1, Hs2. rewrite <- !(assoc_L (++)) in Heq. rewrite Heq.
        by rewrite drop_app_length. }
      assert (is_Some (matchClose (c0 :: close') ((c0 :: close') ++ y)
                         (take (length x - length ws1) s2))) as [g' Hg'].
      { by apply (matchClose_is_Some (c0 :: close') [] y). }
      rewrite <- Hd, Hbefore2 in Hg'; [done|lia]. }
    rewrite lookup_app_r in Hx by lia.
    rewrite Forall_lookup in Hws2. rewrite (Hws2 _ _ Hx) in Hc0. done.
Qed.

Lemma testBlock_hasBlock (open close input : str) :
  testBlock open close input = true <-> hasBlock open close input.
Proof.
  unfold testBlock, hasBlock. split.
  - destruct (execBlock open close input) as [g|] eqn:He; [|done]. intros _.
    apply execBlock_Some in He as (pre & s0 & -> & Hm & _).
    apply matchBlockHere_content in Hm as (ws1 & ws2 & post & -> & _).
    by exists pre, (ws1 ++ g ++ ws2), post.
  - intros (pre & mid & post & ->).
    destruct (execBlock_is_Some open close pre (open ++ mid ++ close ++ post))
      as [g ->]; [apply matchBlockHere_is_Some|done].
Qed.

(** X13: a block is taken as present exactly when its opening keyword
    occurs in the input with its closing keyword somewhere after it. The
    three blocks are looked for in the order [stmt], [results], [rules],
    wherever they stand in the input, and the first one that is not
    present is the one reported missing; with all three present no block
    is reported missing. *)
Theorem parseInput_missing_block (input : str) :
  (~ hasBlock (lit "stmt") (lit "endstmt") input ->
   parseInput input = ThrowsMissingBlock (lit "stmt"))
  /\ (hasBlock (lit "stmt") (lit "endstmt") input ->
      ~ hasBlock (lit "results") (lit "endresults") input ->
      parseInput input = ThrowsMissingBlock (lit "results"))
  /\ (hasBlock (lit "stmt") (lit "endstmt") input ->
      hasBlock (lit "results") (lit "endresults") input ->
      ~ hasBlock (lit "rules") (lit "endrules") input ->
      parseInput input = ThrowsMissingBlock (lit "rules"))
  /\ (hasBlock (lit "stmt") (lit "endstmt") input ->
      hasBlock (lit "results") (lit "endresults") input ->
      hasBlock (lit "rules") (lit "endrules") input ->
      forall blockName, parseInput input <> ThrowsMissingBlock blockName).
Proof.
  unfold parseInput.
  destruct (testBlock (lit "stmt") (lit "endstmt") input) eqn:H1;
    destruct (testBlock (lit "results") (lit "endresults") input) eqn:H2;
    destruct (testBlock (lit "rules") (lit "endrules") input) eqn:H3;
    simpl;
    repeat match goal with
      | H : testBlock _ _ _ = true |- _ => apply testBlock_hasBlock in H
      | H : testBlock _ _ _ = false |- _ =>
          apply not_true_iff_false in H; rewrite testBlock_hasBlock in H
      end;
    repeat split; try done; intros; try done.
  destruct (parseBlocks _ _ _); done.
Qed.

(** X14: the text of a block. The match starts at the first occurrence of
    the opening keyword that has the closing keyword somewhere after it,
    and the block is what stands between that keyword and the first
    closing keyword after it, trimmed of white space at both ends. (The
    closing keywords of the source start with a letter.) *)
Theorem execBlock_content (open close input group : str) :
  execBlock open close input = Some group ->
  exists pre ws1 ws2 post : str,
    input = pre ++ open ++ (ws1 ++ group ++ ws2) ++ close ++ post
    /\ Forall (fun c => isWhiteSpace c = true) ws1
    /\ Forall (fun c => isWhiteSpace c = true) ws2
    /\ group = trim (ws1 ++ group ++ ws2)
    /\ (forall pre' mid' post' : str,
          input = pre' ++ open ++ mid' ++ close ++ post' ->
          (length pre <= length pre')%nat)
    /\ ((exists c close', close = c :: close' /\ isWhiteSpace c = false) ->
        forall x y : str,
          (ws1 ++ group ++ ws2) ++ close ++ post = x ++ close ++ y ->
          (length (ws1 ++ group ++ ws2) <= length x)%nat).
Proof.
  intros (pre & s0 & -> & Hm & Hmin)%execBlock_Some.
  apply matchBlockHere_content in Hm
    as (ws1 & ws2 & post & -> & Hws1 & Hws2 & Hh & Hl & Hfirst).
  exists pre, ws1, ws2, post. split; [done|]. split; [done|]. split; [done|].
  split; [by rewrite trim_unique|]. split; [|done].
  intros pre' mid' post' Heq.
  destruct (decide (length pre <= length pre')%nat) as [|Hlt]; [done|exfalso].
  destruct (matchBlockHere_is_Some open close mid' post') as [g Hg].
  rewrite (Hmin pre' _ Heq) in Hg; [done|lia].
Qed.

Lemma execBlock_content_witness :
  execBlock (lit "stmt") (lit "endstmt") (lit "x stmt
   a = b
endstmt endstmt") = Some (lit "a = b")
  /\ exists pre ws1 ws2 post : str,
       lit "x stmt
   a = b
endstmt endstmt"
       = pre ++ lit "stmt" ++ (ws1 ++ lit "a = b" ++ ws2) ++ lit "endstmt" ++ post
       /\ Forall (fun c => isWhiteSpace c = true) ws1
       /\ Forall (fun c => isWhiteSpace c = true) ws2
       /\ lit "a = b" = trim (ws1 ++ lit "a = b" ++ ws2)
       /\ (forall pre' mid' post' : str,
             lit "x stmt
   a = b
endstmt endstmt" = pre' ++ lit "stmt" ++ mid' ++ lit "endstmt" ++ post' ->
             (length pre <= length pre')%nat)
       /\ ((exists c close', lit "endstmt" = c :: close'
                             /\ isWhiteSpace c = false) ->
           forall x y : str,
             (ws1 ++ lit "a = b" ++ ws2) ++ lit "endstmt" ++ post
               = x ++ lit "endstmt" ++ y ->
             (length (ws1 ++ lit "a = b" ++ ws2) <= length x)%nat).
Proof.
  split; [vm_compute; reflexivity|].
  apply (execBlock_content (lit "stmt") (lit "endstmt")).
  vm_compute; reflexivity.
Defined.

Lemma parseVariables_Throw (block blockName : str) (err : SyntaxError) :
  parseVariables block blockName = Throw err ->
  exists (n : nat) (line : str),
    err = InvalidVariableDeclaration blockName (n + 1) line
    /\ nonBlankLines block !! n = Some line
    /\ count_occ N.eq_dec line (chr "=") <> 1%nat.
Proof.
  unfold parseVariables.
  intros (good & bad & rest & Hl & _ & Hbad)%mapThrows_Throw_inv.
  simpl in Hbad. exists (length good), bad.
  destruct (decide (count_occ N.eq_dec bad (chr "=") = 1%nat)) as [H1|Hn1].
  - destruct (parseVariable_one blockName (length good) bad H1)
      as (b & a & _ & _ & _ & Hp). by rewrite Hp in Hbad.
  - rewrite (parseVariable_not_one _ _ _ Hn1) in Hbad. injection Hbad as <-.
    split; [done|]. split; [|done]. rewrite Hl. by apply list_lookup_middle.
Qed.

Lemma parseRules_Throw (block : str) (err : SyntaxError) :
  parseRules block = Throw err ->
  exists (n : nat) (line : str),
    nonBlankLines block !! n = Some line
    /\ (err = InvalidRule (n + 1) line
        \/ exists inner,
             err = ErrorInRule (n + 1) line inner
             /\ ((exists t, inner = InvalidCondition t)
                 \/ (exists t, inner = InvalidLogicalExpression t))).
Proof.
  unfold parseRules.
  intros (good & bad & rest & Hl & _ & Hbad)%mapThrows_Throw_inv.
  simpl in Hbad. exists (length good), bad.
  split; [rewrite Hl; by apply list_lookup_middle|].
  unfold parseRule in Hbad. destruct (exec ruleRegex bad) as [groups|].
  - destruct (parseExpression (nth 0 groups [])) as [e|inner] eqn:He; [done|].
    injection Hbad as <-. right. exists inner. split; [done|].
    by apply (parseExpression_error_kind (nth 0 groups [])).
  - injection Hbad as <-. by left.
Qed.

(** X15: apart from a missing block, every error of [parseInput] is
    wrapped exactly once as a failure to parse the input, around the error
    of the first block that fails in the order [stmt], [results],
    [rules]: an invalid declaration of the [stmt] or of the [results]
    block, an invalid rule, or the error of a rule's condition (an invalid
    condition or an invalid logical expression). Each carries a line of
    its block and the number of that line, counted from 1 among the
    non-blank lines. *)
Theorem parseInput_errors (input : str) (err : SyntaxError) :
  parseInput input = Throws err ->
  exists (stmtBlock resultsBlock rulesBlock : str) (inner : SyntaxError)
         (n : nat) (line : str),
    execBlock (lit "stmt") (lit "endstmt") input = Some stmtBlock
    /\ execBlock (lit "results") (lit "endresults") input = Some resultsBlock
    /\ execBlock (lit "rules") (lit "endrules") input = Some rulesBlock
    /\ err = FailedToParseInput inner
    /\ ((inner = InvalidVariableDeclaration (lit "stmt") (n + 1) line
         /\ nonBlankLines stmtBlock !! n = Some line)
        \/ (inner = InvalidVariableDeclaration (lit "results") (n + 1) line
            /\ nonBlankLines resultsBlock !! n = Some line
            /\ exists statements,
                 parseVariables stmtBlock (lit "stmt") = Ok statements)
        \/ (nonBlankLines rulesBlock !! n = Some line
            /\ (exists statements,
                  parseVariables stmtBlock (lit "stmt") = Ok statements)
            /\ (exists results,
                  parseVariables resultsBlock (lit "results") = Ok results)
            /\ (inner = InvalidRule (n + 1) line
                \/ exists e,
                     inner = ErrorInRule (n + 1) line e
                     /\ ((exists t, e = InvalidCondition t)
                         \/ (exists t, e = InvalidLogicalExpression t))))).
Proof.
  unfold parseInput, testBlock.
  destruct (execBlock (lit "stmt") (lit "endstmt") input)
    as [stmtBlock|]; [|done].
  destruct (execBlock (lit "results") (lit "endresults") input)
    as [resultsBlock|]; [|done].
  destruct (execBlock (lit "rules") (lit "endrules") input)
    as [rulesBlock|]; [|done].
  simpl. unfold parseBlocks.
  destruct (parseVariables stmtBlock (lit "stmt")) as [statements|e1] eqn:H1.
  - destruct (parseVariables resultsBlock (lit "results"))
      as [results|e2] eqn:H2.
    + destruct (parseRules rulesBlock) as [rules|e3] eqn:H3; simpl; [done|].
      intros [= <-].
      apply parseRules_Throw in H3 as (n & line & Hline & Hkind).
      exists stmtBlock, resultsBlock, rulesBlock, e3, n, line.
      repeat (split; [done|]). right. right. eauto 10.
    + simpl. intros [= <-].
      apply parseVariables_Throw in H2 as (n & line & -> & Hline & _).
      exists stmtBlock, resultsBlock, rulesBlock,
        (InvalidVariableDeclaration (lit "results") (n + 1) line), n, line.
      repeat (split; [done|]). right. left. eauto.
  - simpl. intros [= <-].
    apply parseVariables_Throw in H1 as (n & line & -> & Hline & _).
    exists stmtBlock, resultsBlock, rulesBlock,
      (InvalidVariableDeclaration (lit "stmt") (n + 1) line), n, line.
    repeat (split; [done|]). by left.
Qed.

Lemma parseInput_errors_witness :
  parseInput (lit "stmt a = b endstmt results r = t endresults
rules IF a THEN endrules") =
    Throws (FailedToParseInput
              (InvalidRule 1 (lit "IF a THEN")))
  /\ exists (stmtBlock resultsBlock rulesBlock : str) (inner : SyntaxError),
       execBlock (lit "rules") (lit "endrules")
         (lit "stmt a = b endstmt results r = t endresults
rules IF a THEN endrules") = Some rulesBlock
       /\ FailedToParseInput (InvalidRule 1 (lit "IF a THEN"))
          = FailedToParseInput inner.
Proof.
  split; [vm_compute; reflexivity|].
  destruct (parseInput_errors
              (lit "stmt a = b endstmt results r = t endresults
rules IF a THEN endrules")
              (FailedToParseInput (InvalidRule 1 (lit "IF a THEN"))))
    as (sb & rb & ub & inner & n & line & _ & _ & Hu & Hw & _).
  - vm_compute; reflexivity.
  - exists sb, rb, ub, inner. by split.
Defined.

(** ** The two documented forms of a condition *)

Lemma prefixb_ignoreCase (a s : str) :
  prefixb a s = true -> prefixbIgnoreCase a s = true.
Proof.
  revert s. induction a as [|x a IH]; intros [|y s]; simpl; try done.
  intros [->%N.eqb_eq Ha]%andb_prop. unfold eqbIgnoreCase.
  rewrite N.eqb_refl. simpl. by apply IH.
Qed.

Lemma prefixbIgnoreCase_app (a b s : str) :
  prefixbIgnoreCase a b = true -> prefixbIgnoreCase a (b ++ s) = true.
Proof.
  revert b. induction a as [|x a IH]; intros [|y b]; simpl; try done.
  intros [-> Ha]%andb_prop. simpl. by apply IH.
Qed.

Lemma removeFirstIgnoreCase_hit (a s : str) :
  prefixbIgnoreCase a s = true -> removeFirstIgnoreCase a s = drop (length a) s.
Proof. intros H. destruct s; simpl in *; by rewrite H. Qed.

Lemma removeFirstIgnoreCase_none (a s : str) :
  (forall i, prefixbIgnoreCase a (drop i s) = false) ->
  removeFirstIgnoreCase a s = s.
Proof.
  induction s as [|c s IH]; intros H; pose proof (H 0%nat) as H0;
    simpl in *; rewrite H0; [done|].
  f_equal. apply IH. intros i. apply (H (S i)).
Qed.

Lemma includes_none (a s : str) :
  (forall i, prefixbIgnoreCase a (drop i s) = false) -> includes s a = false.
Proof.
  assert (forall t, prefixbIgnoreCase a t = false -> prefixb a t = false) as Hp.
  { intros t Ht. destruct (prefixb a t) eqn:Hpt; [|done].
    by rewrite (prefixb_ignoreCase _ _ Hpt) in Ht. }
  induction s as [|c s IH]; intros H; pose proof (Hp _ (H 0%nat)) as H0;
    simpl in *; rewrite H0; [done|].
  simpl. apply IH. intros i. apply (H (S i)).
Qed.

(** X16: the two documented forms of a condition. For a variable text that
    is not empty, neither starts nor ends with white space and holds no
    [NOT] in any letter case, the text alone is the condition on that
    variable, not negated, and [NOT] followed by a space and the text is
    the negated condition on it; with [not] in lower case the word is
    removed all the same but the condition is not negated. *)
Theorem parseCondition_forms (v : str) :
  v <> [] -> headNotSpace v -> lastNotSpace v ->
  (forall i, prefixbIgnoreCase (lit "NOT") (drop i v) = false) ->
  parseCondition v = Ok {| variable := v; negated := false |}
  /\ parseCondition (lit "NOT " ++ v) = Ok {| variable := v; negated := true |}
  /\ parseCondition (lit "not " ++ v) = Ok {| variable := v; negated := false |}.
Proof.
  intros Hne Hh Hl Hnone.
  assert (trim (chr " " :: v) = v) as Hsp.
  { replace (chr " " :: v) with ([chr " "] ++ v ++ []) by (by rewrite app_nil_r).
    rewrite trim_around by (by repeat constructor). by apply trim_id. }
  split; [|split]; unfold parseCondition.
  - rewrite removeFirstIgnoreCase_none, includes_none, trim_id by done.
    by destruct v.
  - rewrite removeFirstIgnoreCase_hit
      by (by apply (prefixbIgnoreCase_app (lit "NOT") (lit "NOT") (chr " " :: v))).
    change (drop (length (lit "NOT")) (lit "NOT " ++ v)) with (chr " " :: v).
    rewrite Hsp.
    change (includes (lit "NOT " ++ v) (lit "NOT")) with true.
    by destruct v.
  - rewrite removeFirstIgnoreCase_hit
      by (by apply (prefixbIgnoreCase_app (lit "NOT") (lit "not") (chr " " :: v))).
    change (drop (length (lit "NOT")) (lit "not " ++ v)) with (chr " " :: v).
    rewrite Hsp.
    change (includes (lit "not " ++ v) (lit "NOT"))
      with (includes v (lit "NOT")).
    rewrite includes_none by done. by destruct v.
Qed.

Lemma parseCondition_forms_witness :
  parseCondition (lit "fan_noise")
    = Ok {| variable := lit "fan_noise"; negated := false |}
  /\ parseCondition (lit "NOT " ++ lit "fan_noise")
    = Ok {| variable := lit "fan_noise"; negated := true |}
  /\ parseCondition (lit "not " ++ lit "fan_noise")
    = Ok {| variable := lit "fan_noise"; negated := false |}.
Proof.
  apply (parseCondition_forms (lit "fan_noise")).
  - done.
  - intros c t [= <- _]. vm_compute; reflexivity.
  - intros t c. change (lit "fan_noise") with (lit "fan_nois" ++ [chr "e"]).
    intros [_ <-]%app_inj_tail. vm_compute; reflexivity.
  - intros i. do 10 (destruct i as [|i]; [vm_compute; reflexivity|]).
    vm_compute; reflexivity.
Defined.
